(** * Run/state synchronisation core of the agent-flow front end

    A shallow embedding of
      - [src/app/frontend/src/nodes/components/start-node.tsx]
        (the [StartNode] component: [handlePlay], its event callback and the
        play button), and
      - [src/app/frontend/src/hooks/use-enhanced-flow-actions.ts]
        ([saveCurrentFlowWithCompleteState], [loadFlowWithCompleteState]),
    together with the properties of the natural-language specification that
    are about them.

    JavaScript objects whose keys are only looked up (the node-status map,
    the per-node internal-state layer) are finite maps; objects that are
    spread, extended and persisted (a node's [data] bucket, a flow's [data]
    bucket, the node-context mapping) are association lists in insertion
    order.  Identifiers and property keys are only ever compared, so they
    are [string]s; the ticker text is inspected character by character, so
    it is a sequence of UTF-16 code units. *)

From stdpp Require Import gmap strings list fin_maps pretty.
From Stdlib Require Import ZArith NArith.

Open Scope string_scope.
Open Scope list_scope.

(** ** JavaScript values *)

Set Warnings "-register-all".

Inductive jsval : Type :=
  | JUndefined
  | JNull
  | JBool (b : bool)
  | JNum (n : Z)
  | JStr (s : string)
  | JArr (l : list jsval)
  | JObj (o : list (string * jsval)).

Abbreviation jsobj := (list (string * jsval)).

(** [ToBoolean]: what [if (v)], [v && ...] and [!v] observe. *)
Definition truthy (v : jsval) : bool :=
  match v with
  | JUndefined | JNull => false
  | JBool b => b
  | JNum n => negb (n =? 0)%Z
  | JStr s => negb (String.eqb s "")
  | JArr _ | JObj _ => true
  end.

(** [n.toString()] of an integer-valued number.  For a safe integer
    (magnitude at most 2^53, see [safe_integer]) these are its plain decimal
    digits; a larger integer is printed by JavaScript from the nearest
    double, and no statement below relies on the digits given for one. *)
Definition Number_toString (n : Z) : string := pretty n.

Definition safe_integer (n : Z) : Prop := (Z.abs n <= 2 ^ 53)%Z.

(** [Object.keys(v)] for a value that passed a truthiness test: own
    enumerable string keys. *)
Definition Object_keys (v : jsval) : list string :=
  match v with
  | JObj o => o.*1
  | JArr l => pretty <$> seq 0 (length l)
  | JStr s => pretty <$> seq 0 (String.length s)
  | _ => []
  end.

Module Obj.

(** [o[k]]; [None] is a missing property. *)
Fixpoint get (k : string) (o : jsobj) : option jsval :=
  match o with
  | [] => None
  | (k', v) :: o' => if String.eqb k k' then Some v else get k o'
  end.

Definition has (k : string) (o : jsobj) : bool :=
  match get k o with Some _ => true | None => false end.

(** [o[k] = v]: an existing key keeps its place, a new one goes last. *)
Fixpoint set (k : string) (v : jsval) (o : jsobj) : jsobj :=
  match o with
  | [] => [(k, v)]
  | (k', v') :: o' =>
      if String.eqb k k' then (k, v) :: o' else (k', v') :: set k v o'
  end.

(** [{...target, ...source}]: every property of [source], in order, is
    assigned on a copy of [target]. *)
Definition spread (target source : jsobj) : jsobj :=
  fold_left (fun acc kv => set kv.1 kv.2 acc) source target.

(** [...x] where [x] may be [undefined]: nothing is copied then. *)
Definition of_option (o : option jsobj) : jsobj := default [] o.

(** [o.k] read as a value: a missing property is [undefined]. *)
Definition prop (k : string) (o : jsobj) : jsval :=
  default JUndefined (get k o).

End Obj.

(** ** JavaScript strings as code-unit sequences *)

Module JsString.

Abbreviation t := (list N).

Definition of_string (s : string) : t :=
  Ascii.N_of_ascii <$> String.list_ascii_of_string s.

Definition comma : N := 44.

(** ECMAScript [WhiteSpace] and [LineTerminator] code points, the ones
    [String.prototype.trim] strips. *)
Definition is_white_space (c : N) : bool :=
  ((9 <=? c) && (c <=? 13) || (c =? 32) || (c =? 160) || (c =? 5760)
   || (8192 <=? c) && (c <=? 8202) || (c =? 8232) || (c =? 8233)
   || (c =? 8239) || (c =? 8287) || (c =? 12288) || (c =? 65279))%N.

Fixpoint trimStart (s : t) : t :=
  match s with
  | [] => []
  | c :: s' => if is_white_space c then trimStart s' else s
  end.

Definition trimEnd (s : t) : t := rev (trimStart (rev s)).

(** [s.trim()] *)
Definition trim (s : t) : t := trimEnd (trimStart s).

(** [s.split(sep)] for a one-code-unit separator, with [cur] the segment
    being read (kept reversed).  The empty string splits into [[""]]. *)
Fixpoint split_go (sep : N) (cur : t) (s : t) : list t :=
  match s with
  | [] => [rev cur]
  | c :: s' =>
      if (c =? sep)%N then rev cur :: split_go sep [] s'
      else split_go sep (c :: cur) s'
  end.

Definition split (sep : N) (s : t) : list t := split_go sep [] s.

(** [segs.join(sep)], the inverse reading of [split]. *)
Fixpoint join (sep : N) (segs : list t) : t :=
  match segs with
  | [] => []
  | [x] => x
  | x :: rest => x ++ sep :: join sep rest
  end.

(** [!!s]: only the empty string is falsy. *)
Definition truthy (s : t) : bool :=
  match s with [] => false | _ => true end.

End JsString.

Example split_example :
  JsString.split JsString.comma (JsString.of_string "AAPL,,MSFT")
  = JsString.of_string <$> ["AAPL"; ""; "MSFT"].
Proof. reflexivity. Qed.

(** ** Data model *)

(** A graph node as the canvas holds it: [{id, type, data, ...rest}].
    [data] may be missing on a record that comes back from persistence
    (the load path reads it with [node.data?.]). *)
Record Node : Type := mkNode {
  node_id : string;
  node_type : string;
  node_data : option jsobj;
  node_rest : jsobj
}.

(** The persisted flow record, [Flow] of [@/types/flow]. *)
Record Flow : Type := mkFlow {
  flow_id : Z;
  flow_name : string;
  flow_description : option string;
  flow_nodes : option (list Node);
  flow_edges : list jsval;
  flow_data : option jsobj
}.

Inductive RunStatus : Type := IDLE | IN_PROGRESS | COMPLETE | ERROR.

Global Instance RunStatus_eq_dec : EqDecision RunStatus.
Proof. solve_decision. Defined.

(** A server-pushed event, discriminated by [type]. *)
Record Event : Type := mkEvent {
  event_type : string;
  event_fields : jsobj
}.

(** The body handed to [api.runHedgeFund]. *)
Record RunRequest : Type := mkRunRequest {
  tickers : list JsString.t;
  selected_agents : list string
}.

(** One open request of the run-request collaborator.  The callback passed
    to [api.runHedgeFund] is a closure over the props and setters of the
    [StartNode] that created it; [handler_id] is that node's [id], which
    determines the closure. *)
Record Session : Type := mkSession {
  request : RunRequest;
  handler_id : string;
  aborted : bool
}.

(** The hook state of one mounted [StartNode]: [useState('')],
    [useState(false)] and [useRef(null)]; the ref holds the handle returned
    by [api.runHedgeFund], here the index of its session. *)
Record StartNodeState : Type := mkStartNodeState {
  tickers_input : JsString.t;
  isProcessing : bool;
  abortControllerRef : option nat
}.

Definition initialStartNodeState : StartNodeState :=
  {| tickers_input := []; isProcessing := false; abortControllerRef := None |}.

(** Everything the two source files read or write. *)
Record World : Type := mkWorld {
  rf_nodes : list Node;                  (* reactFlowInstance: the live graph *)
  nodeStates : gmap string RunStatus;    (* node-status context *)
  nodeContext : jsobj;                   (* node context: id -> payload *)
  currentFlowId : option string;         (* use-node-state: active scope *)
  internalStates : gmap (option string * string) jsval;
                                         (* use-node-state: scope, id -> blob *)
  startNodes : gmap string StartNodeState; (* hook state per start node *)
  sessions : list Session;               (* run-request collaborator *)
  backend : gmap Z Flow;                 (* flow persistence collaborator *)
  previousFlowId : option string         (* use-node-state: scope switched from *)
}.

Definition set_rf_nodes (ns : list Node) (w : World) : World :=
  mkWorld ns (nodeStates w) (nodeContext w) (currentFlowId w)
          (internalStates w) (startNodes w) (sessions w) (backend w)
          (previousFlowId w).

Definition set_nodeStates (m : gmap string RunStatus) (w : World) : World :=
  mkWorld (rf_nodes w) m (nodeContext w) (currentFlowId w)
          (internalStates w) (startNodes w) (sessions w) (backend w)
          (previousFlowId w).

Definition set_nodeContext (c : jsobj) (w : World) : World :=
  mkWorld (rf_nodes w) (nodeStates w) c (currentFlowId w)
          (internalStates w) (startNodes w) (sessions w) (backend w)
          (previousFlowId w).

Definition set_currentFlowId (f : option string) (w : World) : World :=
  mkWorld (rf_nodes w) (nodeStates w) (nodeContext w) f
          (internalStates w) (startNodes w) (sessions w) (backend w)
          (previousFlowId w).

Definition set_internalStates
    (m : gmap (option string * string) jsval) (w : World) : World :=
  mkWorld (rf_nodes w) (nodeStates w) (nodeContext w) (currentFlowId w)
          m (startNodes w) (sessions w) (backend w)
          (previousFlowId w).

Definition set_startNodes (m : gmap string StartNodeState) (w : World) : World :=
  mkWorld (rf_nodes w) (nodeStates w) (nodeContext w) (currentFlowId w)
          (internalStates w) m (sessions w) (backend w)
          (previousFlowId w).

Definition set_sessions (l : list Session) (w : World) : World :=
  mkWorld (rf_nodes w) (nodeStates w) (nodeContext w) (currentFlowId w)
          (internalStates w) (startNodes w) l (backend w)
          (previousFlowId w).

Definition set_backend (b : gmap Z Flow) (w : World) : World :=
  mkWorld (rf_nodes w) (nodeStates w) (nodeContext w) (currentFlowId w)
          (internalStates w) (startNodes w) (sessions w) b
          (previousFlowId w).

Definition set_previousFlowId (f : option string) (w : World) : World :=
  mkWorld (rf_nodes w) (nodeStates w) (nodeContext w) (currentFlowId w)
          (internalStates w) (startNodes w) (sessions w) (backend w) f.

Definition emptyWorld : World :=
  mkWorld [] ∅ [] None ∅ ∅ [] ∅ None.

(** ** Calls, outcomes and the monad of the embedding *)

(** Every call the two files make on something they do not define. *)
Inductive Call : Type :=
  | C_getNodes
  | C_setNodes (ns : list Node)
  | C_exportNodeContextData
  | C_importNodeContextData (v : jsval)
  | C_resetAllNodes
  | C_getNodeInternalState (id : string)
  | C_setNodeInternalState (id : string) (v : jsval)
  | C_clearAllNodeStates
  | C_setNodeStateFlowId (scope : string)
  | C_saveCurrentFlow (name description : option string)
  | C_updateFlow (id : Z) (f : Flow)
  | C_loadFlow (f : Flow)
  | C_resetAllStatuses
  | C_updateNodeStatus (id : string) (s : RunStatus)
  | C_abort (handle : nat)
  | C_runHedgeFund (r : RunRequest)
  | C_console_log
  | C_console_error (e : jsval).

(** How a statement ends: normally with a value, or with a thrown one. *)
Inductive outcome (A : Type) : Type :=
  | Ret (a : A)
  | Throw (e : jsval).
Arguments Ret {A} a.
Arguments Throw {A} e.

Record result (A : Type) : Type := mkResult {
  out : outcome A;
  world : World;
  trace : list Call
}.
Arguments mkResult {A} _ _ _.
Arguments out {A} _.
Arguments world {A} _.
Arguments trace {A} _.

(** A computation reads and writes the world, records the calls it makes
    in order, and returns or throws.  [await] is sequencing: the embedding
    follows one invocation at a time. *)
Definition M (A : Type) : Type := World → result A.

Definition ret {A} (a : A) : M A := fun w => mkResult (Ret a) w [].

Definition throw {A} (e : jsval) : M A := fun w => mkResult (Throw e) w [].

Definition bind {A B} (m : M A) (k : A → M B) : M B := fun w =>
  let r := m w in
  match out r with
  | Ret a => let r' := k a (world r) in
             mkResult (out r') (world r') (trace r ++ trace r')
  | Throw e => mkResult (Throw e) (world r) (trace r)
  end.

(** [try { m } catch (e) { h e }] *)
Definition try_catch {A} (m : M A) (h : jsval → M A) : M A := fun w =>
  let r := m w in
  match out r with
  | Ret a => r
  | Throw e => let r' := h e (world r) in
               mkResult (out r') (world r') (trace r ++ trace r')
  end.

(** [try { m } finally { f }]: [f] runs however [m] ends; the completion
    of [m] stands unless [f] itself throws. *)
Definition try_finally {A} (m : M A) (f : M unit) : M A := fun w =>
  let r := m w in
  let r' := f (world r) in
  match out r' with
  | Ret _ => mkResult (out r) (world r') (trace r ++ trace r')
  | Throw e => mkResult (Throw e) (world r') (trace r ++ trace r')
  end.

(** A call that cannot fail: log it, change the world, return. *)
Definition call {A} (c : Call) (f : World → A * World) : M A := fun w =>
  let '(a, w') := f w in mkResult (Ret a) w' [c].

(** A call into a collaborator that may fail. *)
Definition call_ext {A} (c : Call) (f : World → outcome A * World) : M A :=
  fun w => let '(o, w') := f w in mkResult o w' [c].

Declare Scope js_scope.
Delimit Scope js_scope with js.
Notation "x <- m ;; k" := (bind m (fun x => k))
  (at level 100, m at next level, right associativity) : js_scope.
Notation "m ;;; k" := (bind m (fun _ => k))
  (at level 100, right associativity) : js_scope.

(** [xs.forEach(f)] *)
Fixpoint forEach {A} (f : A → M unit) (xs : list A) : M unit :=
  match xs with
  | [] => ret tt
  | x :: xs' => (f x ;;; forEach f xs')%js
  end.

(** [xs.map(f)] for a callback that calls out. *)
Fixpoint mapM {A B} (f : A → M B) (xs : list A) : M (list B) :=
  match xs with
  | [] => ret []
  | x :: xs' => (y <- f x ;; ys <- mapM f xs' ;; ret (y :: ys))%js
  end.

Open Scope js_scope.

(** State kept by React itself ([useState] setters, [useRef] cells): a
    world update that is not a call on a collaborator. *)
Definition update (f : World → World) : M unit := fun w =>
  mkResult (Ret tt) (f w) [].

Definition gets {A} (f : World → A) : M A := fun w => mkResult (Ret (f w)) w [].

(** ** The stores and collaborators the two files call *)

Module NodeStatus.

(** Modelled from the spec: the Node Status Store ([@/contexts/node-status-context],
    not part of the sources at hand); section 4.1: [setStatus] is an
    unconditional overwrite, [resetAll] sets every currently-tracked node id
    to [IDLE]. *)
Definition resetAllStatuses : M unit :=
  call C_resetAllStatuses
       (fun w => (tt, set_nodeStates ((fun _ => IDLE) <$> nodeStates w) w)).

Definition updateNodeStatus (id : string) (s : RunStatus) : M unit :=
  call (C_updateNodeStatus id s)
       (fun w => (tt, set_nodeStates (<[id := s]> (nodeStates w)) w)).

(** [nodeStates[id] || 'IDLE'], as [StartNode] reads its own status. *)
Definition getStatus (id : string) (w : World) : RunStatus :=
  default IDLE (nodeStates w !! id).

End NodeStatus.

Module NodeContext.

(** The own enumerable entries of a value, as an import would walk them. *)
Definition entries (v : jsval) : jsobj :=
  match v with JObj o => o | _ => [] end.

(** Modelled from the spec: the Node Context Store ([@/contexts/node-context],
    not part of the sources at hand); section 4.2: [exportAll] is a snapshot
    of the mapping node id -> payload, [importAll] replaces the store's full
    contents, [resetAll] clears every entry. *)
Definition exportNodeContextData : M jsval :=
  call C_exportNodeContextData (fun w => (JObj (nodeContext w), w)).

Definition importNodeContextData (v : jsval) : M unit :=
  call (C_importNodeContextData v)
       (fun w => (tt, set_nodeContext (entries v) w)).

Definition resetAllNodes : M unit :=
  call C_resetAllNodes (fun w => (tt, set_nodeContext [] w)).

End NodeContext.

Module NodeState.

(** Modelled from the spec: the per-node internal-state layer
    ([@/hooks/use-node-state], not part of the sources at hand); section 4.4:
    reads and writes are scoped to the active flow identity (step 1), and the
    clearing that follows the switch of scope removes the per-node internal
    state of the previous scope (step 2) - so the layer remembers the scope
    it was switched from.  Entries under any other scope are left alone. *)
Definition setCurrentFlowId (scope : string) : M unit :=
  call (C_setNodeStateFlowId scope)
       (fun w => (tt, set_currentFlowId (Some scope)
                        (set_previousFlowId (currentFlowId w) w))).

(** The entries of the layer outside scope [scope]. *)
Definition outside_scope (scope : option string)
    (m : gmap (option string * string) jsval)
  : gmap (option string * string) jsval :=
  filter (fun kv => kv.1.1 ≠ scope) m.

Definition clearAllNodeStates : M unit :=
  call C_clearAllNodeStates
       (fun w => (tt, set_internalStates
                        (outside_scope (previousFlowId w) (internalStates w))
                        w)).

Definition lookupInternalState (id : string) (w : World) : jsval :=
  default JUndefined (internalStates w !! (currentFlowId w, id)).

Definition getNodeInternalState (id : string) : M jsval :=
  call (C_getNodeInternalState id) (fun w => (lookupInternalState id w, w)).

Definition setNodeInternalState (id : string) (v : jsval) : M unit :=
  call (C_setNodeInternalState id v)
       (fun w => (tt, set_internalStates
                        (<[(currentFlowId w, id) := v]> (internalStates w)) w)).

End NodeState.

Module ReactFlow.

(** [reactFlowInstance.getNodes()] and [.setNodes(ns)] of the diagramming
    widget: read and replace the live node list. *)
Definition getNodes : M (list Node) :=
  call C_getNodes (fun w => (rf_nodes w, w)).

Definition setNodes (ns : list Node) : M unit :=
  call (C_setNodes ns) (fun w => (tt, set_rf_nodes ns w)).

End ReactFlow.

Module Api.

Definition mark_aborted (s : Session) : Session :=
  mkSession (request s) (handler_id s) true.

(** Modelled from the spec: the run-request collaborator ([@/services/api],
    not part of the sources at hand); section 6: it accepts the request and
    an event handler and returns a cancellation handle; invoking the handle
    closes the stream without throwing.  Events reach the handler later,
    from the event loop, never from inside these two calls. *)
Definition runHedgeFund (r : RunRequest) (handler : string) : M nat :=
  call (C_runHedgeFund r)
       (fun w => (length (sessions w),
                  set_sessions (sessions w ++ [mkSession r handler false]) w)).

Definition abort (handle : nat) : M unit :=
  call (C_abort handle)
       (fun w => (tt, set_sessions (alter mark_aborted handle (sessions w)) w)).

End Api.

Module Console.

Definition log : M unit := call C_console_log (fun w => (tt, w)).

Definition error (e : jsval) : M unit :=
  call (C_console_error e) (fun w => (tt, w)).

End Console.

(** ** [start-node.tsx] *)

Module StartNode.

Import NodeStatus.

Definition hooks (id : string) (w : World) : StartNodeState :=
  default initialStartNodeState (startNodes w !! id).

Definition setTickers (id : string) (v : JsString.t) : M unit :=
  update (fun w =>
    let h := hooks id w in
    set_startNodes
      (<[id := mkStartNodeState v (isProcessing h) (abortControllerRef h)]>
         (startNodes w)) w).

Definition setIsProcessing (id : string) (b : bool) : M unit :=
  update (fun w =>
    let h := hooks id w in
    set_startNodes
      (<[id := mkStartNodeState (tickers_input h) b (abortControllerRef h)]>
         (startNodes w)) w).

Definition setAbortControllerRef (id : string) (r : option nat) : M unit :=
  update (fun w =>
    let h := hooks id w in
    set_startNodes
      (<[id := mkStartNodeState (tickers_input h) (isProcessing h) r]>
         (startNodes w)) w).

(** [handleTickersChange]: the input's new text becomes the state. *)
Definition handleTickersChange (id : string) (value : JsString.t) : M unit :=
  setTickers id value.

(** [Boolean] applied to a string (the predicate of [.filter(Boolean)]). *)
Definition Boolean (s : string) : bool := negb (String.eqb s "").

(** [tickers.split(',').map(t => t.trim())] *)
Definition tickerList (tickers : JsString.t) : list JsString.t :=
  JsString.trim <$> JsString.split JsString.comma tickers.

(** [getNodes().map(node => node.id as string).filter(Boolean)] *)
Definition selectedAgents (ns : list Node) : list string :=
  List.filter Boolean (node_id <$> ns).

(** The callback given to [api.runHedgeFund] by the start node [id]. *)
Definition onEvent (id : string) (event : Event) : M unit :=
  if String.eqb (event_type event) "complete" then
    setIsProcessing id false ;;;
    updateNodeStatus id COMPLETE
  else if String.eqb (event_type event) "error" then
    setIsProcessing id false ;;;
    updateNodeStatus id ERROR
  else ret tt.

Definition handlePlay (id : string) : M unit :=
  setIsProcessing id true ;;;
  (* First, reset all nodes to IDLE *)
  resetAllStatuses ;;;
  (* Update this node to IN_PROGRESS *)
  updateNodeStatus id IN_PROGRESS ;;;
  (* Clean up any existing connection *)
  ref <- gets (fun w => abortControllerRef (hooks id w)) ;;
  match ref with
  | Some handle => Api.abort handle
  | None => ret tt
  end ;;;
  tickers <- gets (fun w => tickers_input (hooks id w)) ;;
  nodes <- ReactFlow.getNodes ;;
  handle <- Api.runHedgeFund
              (mkRunRequest (tickerList tickers) (selectedAgents nodes)) id ;;
  setAbortControllerRef id (Some handle).

(** [disabled={isProcessing || !tickers.trim()}] on the play button. *)
Definition playDisabled (id : string) (w : World) : bool :=
  isProcessing (hooks id w)
  || negb (JsString.truthy (JsString.trim (tickers_input (hooks id w)))).

(** A click on the play button: [onClick={handlePlay}], unless disabled. *)
Definition clickPlay (id : string) : M unit := fun w =>
  if playDisabled id w then ret tt w else handlePlay id w.

(** The effect clean-up on unmount: the held handle, if any, is invoked. *)
Definition unmount (id : string) : M unit :=
  ref <- gets (fun w => abortControllerRef (hooks id w)) ;;
  match ref with
  | Some handle => Api.abort handle
  | None => ret tt
  end.

(** The event loop hands one event of the stream behind [handle] to the
    callback that was registered for that stream.  Whether the collaborator
    still hands events over once the handle has been invoked is decided
    outside these sources; the callback is run as written. *)
Definition deliver (handle : nat) (event : Event) : M unit := fun w =>
  match sessions w !! handle with
  | Some s => onEvent (handler_id s) event w
  | None => ret tt w
  end.

End StartNode.

(** ** [use-enhanced-flow-actions.ts] *)

Module EnhancedFlowActions.

Import NodeContext NodeState.

Section Hook.

(** What [useFlowContext()] and [flowService] provide: the base save, the
    base load and the update call of the persistence collaborator.  They
    live outside the sources at hand, so the hook is embedded over any
    behaviour of theirs: each may change the world and may throw. *)
Variable saveCurrentFlow_impl :
  option string → option string → World → outcome (option Flow) * World.
Variable updateFlow_impl : Z → Flow → World → outcome Flow * World.
Variable loadFlow_impl : Flow → World → outcome unit * World.

Definition saveCurrentFlow (name description : option string)
  : M (option Flow) :=
  call_ext (C_saveCurrentFlow name description)
           (saveCurrentFlow_impl name description).

Definition updateFlow (id : Z) (f : Flow) : M Flow :=
  call_ext (C_updateFlow id f) (updateFlow_impl id f).

Definition loadFlow (f : Flow) : M unit :=
  call_ext (C_loadFlow f) (loadFlow_impl f).

(** [internalState && Object.keys(internalState).length > 0] *)
Definition hasStateToSave (internalState : jsval) : bool :=
  truthy internalState && (0 <? length (Object_keys internalState))%nat.

(** [{ ...node.data, ...(cond ? { internal_state: internalState } : {}) }] *)
Definition enhancedData (data : option jsobj) (internalState : jsval) : jsobj :=
  Obj.spread (Obj.of_option data)
             (if hasStateToSave internalState
              then [("internal_state", internalState)]
              else []).

(** The callback of [currentNodes.map(...)]: [{ ...node, data: {...} }]. *)
Definition enhanceNode (node : Node) : M Node :=
  internalState <- getNodeInternalState (node_id node) ;;
  ret (mkNode (node_id node) (node_type node)
              (Some (enhancedData (node_data node) internalState))
              (node_rest node)).

(** [{ ...savedFlow, data: { ...savedFlow.data, nodeContextData } }] *)
Definition withNodeContextData (savedFlow : Flow) (nodeContextData : jsval)
  : Flow :=
  mkFlow (flow_id savedFlow) (flow_name savedFlow)
         (flow_description savedFlow) (flow_nodes savedFlow)
         (flow_edges savedFlow)
         (Some (Obj.spread (Obj.of_option (flow_data savedFlow))
                           [("nodeContextData", nodeContextData)])).

Definition saveCurrentFlowWithCompleteState (name description : option string)
  : M (option Flow) :=
  try_catch
    ((* Get current nodes from React Flow *)
     currentNodes <- ReactFlow.getNodes ;;
     (* Get node context data *)
     nodeContextData <- exportNodeContextData ;;
     (* Enhance nodes with internal states *)
     nodesWithStates <- mapM enhanceNode currentNodes ;;
     (* Temporarily replace nodes in React Flow with enhanced nodes *)
     ReactFlow.setNodes nodesWithStates ;;;
     try_finally
       (savedFlow <- saveCurrentFlow name description ;;
        match savedFlow with
        | Some saved =>
            updatedFlow <- updateFlow (flow_id saved)
                             (withNodeContextData saved nodeContextData) ;;
            ret (Some updatedFlow)
        | None => ret savedFlow
        end)
       ((* Restore original nodes *)
        ReactFlow.setNodes currentNodes))
    (fun err => Console.error err ;;; ret None).

(** [node.data?.internal_state] *)
Definition internal_state_of (node : Node) : jsval :=
  match node_data node with
  | Some d => Obj.prop "internal_state" d
  | None => JUndefined
  end.

(** [flow.data?.nodeContextData] *)
Definition nodeContextData_of (flow : Flow) : jsval :=
  match flow_data flow with
  | Some d => Obj.prop "nodeContextData" d
  | None => JUndefined
  end.

(** The callback of [flow.nodes.forEach(...)]. *)
Definition restoreNode (node : Node) : M unit :=
  if truthy (internal_state_of node)
  then setNodeInternalState (node_id node) (internal_state_of node)
  else ret tt.

(** The [try] block of [loadFlowWithCompleteState]. *)
Definition loadFlowWithCompleteState_body (flow : Flow) : M unit :=
  (* First, set the flow ID for node state isolation *)
  setCurrentFlowId (Number_toString (flow_id flow)) ;;;
  (* Clear all existing node states *)
  clearAllNodeStates ;;;
  (* Clear all node context data for current flow *)
  resetAllNodes ;;;
  (* Load the flow using the basic function *)
  loadFlow flow ;;;
  (* Then restore internal states for each node *)
  match flow_nodes flow with
  | Some nodes => forEach restoreNode nodes
  | None => ret tt
  end ;;;
  (* Finally, restore node context data *)
  (if truthy (nodeContextData_of flow)
   then importNodeContextData (nodeContextData_of flow)
   else ret tt) ;;;
  Console.log.

Definition loadFlowWithCompleteState (flow : Flow) : M unit :=
  try_catch (loadFlowWithCompleteState_body flow)
            (fun error => Console.error error ;;; throw error).

End Hook.

(** *** A faithful persistence collaborator *)

(** Modelled from the spec: the base save of the flow context (section 4.4,
    step 4: it captures the live graph and produces a saved Flow with an
    id) over a store that keeps what it is given (section 6). *)
Definition faithful_saveCurrentFlow (name description : option string)
    (w : World) : outcome (option Flow) * World :=
  let id := (1 + Z.of_nat (size (backend w)))%Z in
  let saved := mkFlow id (default "Untitled" name) description
                      (Some (rf_nodes w)) [] None in
  (Ret (Some saved), set_backend (<[id := saved]> (backend w)) w).

(** Modelled from the spec: [update] of the persistence collaborator
    (section 6: it returns the merged record; the hook sends a whole
    record, so the merge is that record). *)
Definition faithful_updateFlow (id : Z) (f : Flow) (w : World)
  : outcome Flow * World :=
  (Ret f, set_backend (<[id := f]> (backend w)) w).

(** Modelled from the spec: the base load of the flow context (section 4.4,
    step 4: it applies the flow's graph structure). *)
Definition faithful_loadFlow (f : Flow) (w : World) : outcome unit * World :=
  (Ret tt, set_rf_nodes (default [] (flow_nodes f)) w).

(** A persistence collaborator whose every call is rejected. *)
Definition failing_saveCurrentFlow (name description : option string)
    (w : World) : outcome (option Flow) * World :=
  (Throw (JStr "save failed"), w).

Definition failing_updateFlow (id : Z) (f : Flow) (w : World)
  : outcome Flow * World :=
  (Throw (JStr "update failed"), w).

Definition failing_loadFlow (f : Flow) (w : World) : outcome unit * World :=
  (Throw (JStr "load failed"), w).

End EnhancedFlowActions.

(** ** Vocabulary of the statements

    Closed forms of what the embedded functions compute, projections of
    their results, and the example worlds the statements are tried on. *)

Section Vocabulary.

Import StartNode NodeStatus EnhancedFlowActions NodeState NodeContext.

(** The request a play on [id] submits in world [w]. *)
Definition submitted (id : string) (w : World) : RunRequest :=
  mkRunRequest (tickerList (tickers_input (hooks id w)))
               (selectedAgents (rf_nodes w)).

(** The sessions of the collaborator once the held handle was invoked. *)
Definition after_cleanup (id : string) (w : World) : list Session :=
  match abortControllerRef (hooks id w) with
  | Some handle => alter Api.mark_aborted handle (sessions w)
  | None => sessions w
  end.

(** What the callback of start node [id] does to the status map. *)
Definition statuses_after_event (id : string) (event : Event)
    (m : gmap string RunStatus) : gmap string RunStatus :=
  if String.eqb (event_type event) "complete" then <[id := COMPLETE]> m
  else if String.eqb (event_type event) "error" then <[id := ERROR]> m
  else m.

(** A world in which the start node holds text and the graph has agents. *)
Definition demoWorld : World :=
  set_startNodes
    {[ "start" := mkStartNodeState (JsString.of_string "AAPL,,MSFT") false None ]}
    (set_nodeStates {[ "start" := ERROR; "agent" := COMPLETE ]}
       (set_rf_nodes [mkNode "start" "start" None [];
                      mkNode "agent" "agent" None []] emptyWorld)).

(** The request of the run a play has just opened. *)
Definition opened_request (id : string) (w : World) : option RunRequest :=
  request <$> last (sessions (world (handlePlay id w))).

(** A graph with a node whose id is the empty string. *)
Definition blankIdWorld : World :=
  set_rf_nodes [mkNode "start" "start" None []; mkNode "" "agent" None [];
                mkNode "agent" "agent" None []] emptyWorld.

(** A text made of white space only (the empty text included). *)
Definition all_white_space (s : JsString.t) : Prop :=
  Forall (fun c => JsString.is_white_space c = true) s.

Definition blankTextWorld : World :=
  set_startNodes
    {[ "start" := mkStartNodeState (JsString.of_string "  ") false None ]}
    demoWorld.

(** Two plays on the same start node, one right after the other: run R1
    (handle 0) and then run R2 (handle 1). *)
Definition twoRuns : World :=
  world ((handlePlay "start" ;;; handlePlay "start") demoWorld).

Definition oneRun : World := world (handlePlay "start" demoWorld).

(** The same through the play button: R1 is played and completes, which
    enables the button again; R2 is played. *)
Definition restartedRun : World :=
  world ((clickPlay "start" ;;;
          deliver 0 (mkEvent "complete" []) ;;;
          clickPlay "start") demoWorld).

(** The enhanced copy of one node, in world [w]. *)
Definition enhanced (w : World) (node : Node) : Node :=
  mkNode (node_id node) (node_type node)
         (Some (enhancedData (node_data node)
                             (lookupInternalState (node_id node) w)))
         (node_rest node).

(** The calls up to the moment the enhanced list is on the live graph. *)
Definition save_prefix (w : World) : list Call :=
  [C_getNodes; C_exportNodeContextData]
    ++ ((fun n => C_getNodeInternalState (node_id n)) <$> rf_nodes w)
    ++ [C_setNodes (enhanced w <$> rf_nodes w)].

(** The internal-state layer after the restoring loop over [ns]. *)
Definition restored (scope : option string) (ns : list Node)
    (m : gmap (option string * string) jsval)
  : gmap (option string * string) jsval :=
  fold_left (fun m n =>
               if truthy (internal_state_of n)
               then <[(scope, node_id n) := internal_state_of n]> m
               else m) ns m.

(** The calls of the restoring loop over [ns]. *)
Definition restore_calls (ns : list Node) : list Call :=
  (fun n => C_setNodeInternalState (node_id n) (internal_state_of n))
    <$> List.filter (fun n => truthy (internal_state_of n)) ns.

Definition import_calls (flow : Flow) : list Call :=
  if truthy (nodeContextData_of flow)
  then [C_importNodeContextData (nodeContextData_of flow)]
  else [].

(** The calls every load starts with, in this order. *)
Definition load_prefix (flow : Flow) : list Call :=
  [C_setNodeStateFlowId (Number_toString (flow_id flow)); C_clearAllNodeStates;
   C_resetAllNodes; C_loadFlow flow].

(** The world the base load is started in. *)
Definition cleared (flow : Flow) (w : World) : World :=
  set_nodeContext []
    (set_internalStates
       (NodeState.outside_scope (currentFlowId w) (internalStates w))
       (set_currentFlowId (Some (Number_toString (flow_id flow)))
          (set_previousFlowId (currentFlowId w) w))).

(** The node lists written to the live graph, in order. *)
Definition applied_node_lists (t : list Call) : list (list Node) :=
  flat_map (fun c => match c with C_setNodes ns => [ns] | _ => [] end) t.

(** A graph with node A (internal state [{x: 1}], context ["msg"]) and
    node B (no internal state). *)
Definition savedWorld : World :=
  set_internalStates {[ (None, "A") := JObj [("x", JNum 1)] ]}
    (set_nodeContext [("A", JStr "msg")]
       (set_rf_nodes [mkNode "A" "agent" (Some [("name", JStr "Agent A")]) [];
                      mkNode "B" "agent" (Some [("name", JStr "Agent B")]) []]
          emptyWorld)).

Definition flowF1 : Flow :=
  mkFlow 1 "F1" None
         (Some [mkNode "A" "agent"
                  (Some [("internal_state", JObj [("x", JNum 1)])]) []])
         [] (Some [("nodeContextData", JObj [("A", JStr "p")])]).

Definition flowF2 : Flow :=
  mkFlow 2 "F2" None (Some [mkNode "B" "agent" (Some []) []]) [] None.

(** A blob that is there and is not empty, told by the shape of the value
    and not by the test the save makes: an object with at least one key
    (an array with an element, a string with a character).  [undefined],
    [null] and the empty object [{}] are not. *)
Definition has_own_keys (v : jsval) : Prop :=
  match v with
  | JObj o => o ≠ []
  | JArr l => l ≠ []
  | JStr s => s ≠ ""
  | _ => False
  end.

(** A graph with node A (internal state [{x: 1}]), node B (internal state
    the empty object [{}]) and node C (no internal state at all). *)
Definition blobWorld : World :=
  set_internalStates {[ (None, "A") := JObj [("x", JNum 1)];
                        (None, "B") := JObj [] ]}
    (set_rf_nodes [mkNode "A" "agent" (Some [("name", JStr "Agent A")]) [];
                   mkNode "B" "agent" (Some [("name", JStr "Agent B")]) [];
                   mkNode "C" "agent" (Some [("name", JStr "Agent C")]) []]
       emptyWorld).

(** The restore call a node of a loaded record gives rise to, read off the
    record itself: its data bucket has an [internal_state] entry whose value
    is truthy. *)
Definition restore_call (node : Node) : option Call :=
  match node_data node with
  | Some d =>
      match Obj.get "internal_state" d with
      | Some v => if truthy v
                  then Some (C_setNodeInternalState (node_id node) v)
                  else None
      | None => None
      end
  | None => None
  end.

(** A graph whose node A carries an [internal_state] key in its data bucket
    (as a loaded record does) while the internal-state layer holds nothing
    for A. *)
Definition staleWorld : World :=
  set_rf_nodes
    [mkNode "A" "agent"
       (Some [("name", JStr "Agent A");
              ("internal_state", JObj [("x", JNum 1)])]) []]
    emptyWorld.

(** *** What a user, the event loop and React can do to start nodes *)

Inductive Action : Type :=
  | Play (id : string)                       (* [handlePlay] itself *)
  | Click (id : string)                      (* a click on the play button *)
  | TypeTickers (id : string) (text : JsString.t)  (* the input changes *)
  | Deliver (handle : nat) (event : Event)   (* an event reaches a callback *)
  | Unmount (id : string).                   (* the effect clean-up runs *)

Definition perform (a : Action) : M unit :=
  match a with
  | Play id => handlePlay id
  | Click id => clickPlay id
  | TypeTickers id text => handleTickersChange id text
  | Deliver handle event => deliver handle event
  | Unmount id => unmount id
  end.

Definition performAll (acts : list Action) : M unit := forEach perform acts.

(** A handle held by a start node is the handle of a stream that start node
    opened. *)
Definition handles_held_are_own (w : World) : Prop :=
  ∀ id h, abortControllerRef (hooks id w) = Some h →
          ∃ s, sessions w !! h = Some s ∧ handler_id s = id.

(** A stream whose handle was never invoked is the one its start node
    holds. *)
Definition live_stream_is_held (w : World) : Prop :=
  ∀ h s, sessions w !! h = Some s → aborted s = false →
         abortControllerRef (hooks (handler_id s) w) = Some h.

(** No two node ids read [IN_PROGRESS]. *)
Definition at_most_one_in_progress (w : World) : Prop :=
  ∀ a b, getStatus a w = IN_PROGRESS → getStatus b w = IN_PROGRESS → a = b.

(** Only a start node that has played reads something else than [IDLE]. *)
Definition only_played_nodes_are_coloured (w : World) : Prop :=
  (∀ m, getStatus m w ≠ IDLE → abortControllerRef (hooks m w) ≠ None)
  ∧ (∀ h s, sessions w !! h = Some s →
            abortControllerRef (hooks (handler_id s) w) ≠ None).

(** The collaborator's sessions only grow, keep their request and callback,
    and never go back from cancelled to live. *)
Definition sessions_grow (old new : list Session) : Prop :=
  ∀ h s, old !! h = Some s →
         ∃ s', new !! h = Some s'
               ∧ request s' = request s
               ∧ handler_id s' = handler_id s
               ∧ (aborted s = true → aborted s' = true).

(** The hook state of start node [id] after a play in world [w]. *)
Definition hooks_after_play (id : string) (w : World) : StartNodeState :=
  mkStartNodeState (tickers_input (hooks id w)) true
                   (Some (length (sessions w))).

(** The hook state of a start node after a terminal event. *)
Definition hooks_after_event (st : StartNodeState) : StartNodeState :=
  mkStartNodeState (tickers_input st) false (abortControllerRef st).

(** [event.type] is one of the two types the callback reacts to. *)
Definition is_terminal (event : Event) : bool :=
  String.eqb (event_type event) "complete"
  || String.eqb (event_type event) "error".

(** The status a terminal event leaves on the initiating node. *)
Definition terminal_status (event : Event) : RunStatus :=
  if String.eqb (event_type event) "complete" then COMPLETE else ERROR.

(** The start node an action starts a run on, if it starts one. *)
Definition starts (a : Action) (w : World) : option string :=
  match a with
  | Play id => Some id
  | Click id => if playDisabled id w then None else Some id
  | _ => None
  end.

(** A session with two start nodes: the first plays, finishes and plays
    again, the second plays (twice clicked) and is unmounted. *)
Definition demoActions : list Action :=
  [TypeTickers "start" (JsString.of_string "AAPL, MSFT");
   Click "start";
   Click "start";
   Deliver 0 (mkEvent "progress" []);
   Deliver 0 (mkEvent "complete" []);
   TypeTickers "other" (JsString.of_string "NVDA");
   Click "other";
   Click "start";
   Deliver 1 (mkEvent "error" []);
   Unmount "other"].

(** A ticker as the request carries it: no comma inside, no white space at
    either end. *)
Definition clean_ticker (t : JsString.t) : Prop :=
  (JsString.comma ∉ t) ∧ (JsString.trim t = t).

(** The base load left the Node Context Store and the internal-state layer
    with its scope as they were when it was called. *)
Definition keeps_stores (before after : World) : Prop :=
  nodeContext after = nodeContext before
  ∧ currentFlowId after = currentFlowId before
  ∧ internalStates after = internalStates before.

(** The run-time state outside the graph: statuses, node context, scope
    and internal states. *)
Definition stores (w : World)
  : gmap string RunStatus * jsobj * option string
    * gmap (option string * string) jsval :=
  (nodeStates w, nodeContext w, currentFlowId w, internalStates w).

(** The update calls made on the persistence collaborator, in order. *)
Definition update_calls (t : list Call) : list (Z * Flow) :=
  flat_map (fun c => match c with C_updateFlow id f => [(id, f)] | _ => [] end) t.

(** The base saves started, in order. *)
Definition base_save_calls (t : list Call)
  : list (option string * option string) :=
  flat_map (fun c => match c with
                     | C_saveCurrentFlow n d => [(n, d)]
                     | _ => []
                     end) t.

(** The internal state a load puts under a node id, read off the record. *)
Definition persisted_state (node : Node) : jsval :=
  if truthy (internal_state_of node) then internal_state_of node
  else JUndefined.

(** The nodes of a record as the save writes it: one with internal state,
    one with an empty object for it, one without. *)
Definition nodeA3 : Node :=
  mkNode "A" "agent"
         (Some [("name", JStr "A"); ("internal_state", JObj [("x", JNum 1)])])
         [].

Definition nodeB3 : Node :=
  mkNode "B" "agent"
         (Some [("internal_state", JObj []); ("name", JStr "B")]) [].

Definition nodeC3 : Node :=
  mkNode "C" "agent" (Some [("name", JStr "C")]) [].

Definition flowF3 : Flow :=
  mkFlow 3 "F3" (Some "demo") (Some [nodeA3; nodeB3; nodeC3])
         [] (Some [("nodeContextData", JObj [("A", JStr "p")])]).

(** Every entry of the internal-state layer is under the active scope - as
    it is from an empty layer on, since writes go under the active scope and
    a load clears the scope it leaves. *)
Definition scoped (w : World) : Prop :=
  map_Forall (fun k _ => k.1 = currentFlowId w) (internalStates w).

(** A world that still holds another flow's run-time state: flow 7 is
    open, with internal state for its nodes Z and C and a context entry. *)
Definition usedWorld : World :=
  set_currentFlowId (Some "7")
    (set_internalStates {[ (Some "7", "Z") := JObj [("old", JBool true)];
                           (Some "7", "C") := JObj [("old", JBool true)] ]}
       (set_nodeContext [("Z", JStr "old")] demoWorld)).

End Vocabulary.

(** * Properties *)

(** ** Splitting and trimming *)

Section JsStringFacts.

Import JsString.

Lemma split_go_nonempty sep cur s : split_go sep cur s ≠ [].
Proof. revert cur; induction s as [|c s IH]; intros cur; simpl; [done|]. by destruct (c =? sep)%N. Qed.

Lemma join_cons sep x rest :
  rest ≠ [] → join sep (x :: rest) = x ++ sep :: join sep rest.
Proof. by destruct rest. Qed.

Lemma split_go_join sep cur s : join sep (split_go sep cur s) = rev cur ++ s.
Proof.
  revert cur; induction s as [|c s IH]; intros cur; simpl.
  - by rewrite app_nil_r.
  - destruct (N.eqb_spec c sep) as [->|Hne].
    + rewrite join_cons by apply split_go_nonempty. by rewrite IH.
    + rewrite IH. simpl. by rewrite <- app_assoc.
Qed.

Lemma split_go_no_sep sep cur s :
  sep ∉ cur → Forall (fun seg => sep ∉ seg) (split_go sep cur s).
Proof.
  revert cur; induction s as [|c s IH]; intros cur Hcur; simpl.
  - constructor; [|constructor]. by rewrite list_elem_of_In, <- in_rev, <- list_elem_of_In.
  - destruct (N.eqb_spec c sep) as [->|Hne].
    + constructor.
      * by rewrite list_elem_of_In, <- in_rev, <- list_elem_of_In.
      * apply IH. apply not_elem_of_nil.
    + apply IH. rewrite not_elem_of_cons. split; [congruence | done].
Qed.

Lemma split_go_length sep cur s :
  length (split_go sep cur s) = S (length (List.filter (N.eqb sep) s)).
Proof.
  revert cur; induction s as [|c s IH]; intros cur; simpl; [done|].
  rewrite (N.eqb_sym sep c). destruct (c =? sep)%N; simpl; by rewrite IH.
Qed.

Lemma trimStart_decompose s :
  ∃ l, s = l ++ trimStart s ∧ Forall (fun c => is_white_space c = true) l.
Proof.
  induction s as [|c s IH]; simpl.
  - by exists [].
  - destruct (is_white_space c) eqn:Hc.
    + destruct IH as (l & Hs & Hl). exists (c :: l). split.
      * simpl. by f_equal.
      * by constructor.
    + by exists [].
Qed.

Lemma trimStart_head s c : head (trimStart s) = Some c → is_white_space c = false.
Proof.
  induction s as [|c' s IH]; simpl; [done|].
  destruct (is_white_space c') eqn:Hc; [done|]. simpl. by intros [= <-].
Qed.

Lemma trimStart_all_ws s :
  Forall (fun c => is_white_space c = true) s → trimStart s = [].
Proof. induction 1 as [|c s Hc _ IH]; simpl; [done|]. by rewrite Hc. Qed.

Lemma trimEnd_decompose s :
  ∃ r, s = trimEnd s ++ r ∧ Forall (fun c => is_white_space c = true) r.
Proof.
  unfold trimEnd. destruct (trimStart_decompose (rev s)) as (l & Hs & Hl).
  exists (rev l). split.
  - rewrite <- rev_app_distr, <- Hs. by rewrite rev_involutive.
  - by apply Forall_rev.
Qed.

Lemma last_rev_head (s : t) : last (rev s) = head s.
Proof. destruct s as [|c s]; simpl; [done|]. apply last_snoc. Qed.

Lemma trimEnd_last s c : last (trimEnd s) = Some c → is_white_space c = false.
Proof.
  unfold trimEnd. rewrite last_rev_head. apply trimStart_head.
Qed.

Lemma trim_decompose s :
  ∃ l r, s = l ++ trim s ++ r
         ∧ Forall (fun c => is_white_space c = true) l
         ∧ Forall (fun c => is_white_space c = true) r.
Proof.
  destruct (trimStart_decompose s) as (l & Hs & Hl).
  destruct (trimEnd_decompose (trimStart s)) as (r & Ht & Hr).
  exists l, r. split; [|done]. unfold trim. by rewrite <- Ht.
Qed.

Lemma trim_last s c : last (trim s) = Some c → is_white_space c = false.
Proof. apply trimEnd_last. Qed.

Lemma trim_head s c : head (trim s) = Some c → is_white_space c = false.
Proof.
  unfold trim. intros Hh.
  destruct (trimEnd_decompose (trimStart s)) as (r & Ht & _).
  apply (trimStart_head s). rewrite Ht.
  destruct (trimEnd (trimStart s)); [done|]. exact Hh.
Qed.

Lemma trim_all_ws s :
  Forall (fun c => is_white_space c = true) s → trim s = [].
Proof. intros H. unfold trim. by rewrite trimStart_all_ws. Qed.

End JsStringFacts.

(** ** The start node *)

Section StartNodeProperties.

Import StartNode NodeStatus.

Ltac run_play :=
  unfold handlePlay, submitted, after_cleanup, bind; cbn;
  repeat (unfold hooks; cbn; rewrite ?lookup_insert_eq);
  try (destruct (abortControllerRef _); cbn;
       repeat (unfold hooks; cbn; rewrite ?lookup_insert_eq)).

Lemma handlePlay_out id w : out (handlePlay id w) = Ret tt.
Proof.
  unfold handlePlay, bind. cbn.
  destruct (abortControllerRef _); reflexivity.
Qed.

Lemma handlePlay_trace id w :
  trace (handlePlay id w)
  = [C_resetAllStatuses; C_updateNodeStatus id IN_PROGRESS]
      ++ match abortControllerRef (hooks id w) with
         | Some handle => [C_abort handle]
         | None => []
         end
      ++ [C_getNodes; C_runHedgeFund (submitted id w)].
Proof.
  run_play; reflexivity.
Qed.

Lemma handlePlay_nodeStates id w :
  nodeStates (world (handlePlay id w))
  = <[id := IN_PROGRESS]> ((fun _ => IDLE) <$> nodeStates w).
Proof.
  unfold handlePlay, bind. cbn.
  destruct (abortControllerRef _); reflexivity.
Qed.

Lemma handlePlay_sessions id w :
  sessions (world (handlePlay id w))
  = after_cleanup id w ++ [mkSession (submitted id w) id false].
Proof.
  run_play; reflexivity.
Qed.

Lemma handlePlay_frame id w :
  nodeContext (world (handlePlay id w)) = nodeContext w
  ∧ rf_nodes (world (handlePlay id w)) = rf_nodes w.
Proof.
  unfold handlePlay, bind. cbn.
  destruct (abortControllerRef _); split; reflexivity.
Qed.

Lemma handlePlay_hooks id w :
  hooks id (world (handlePlay id w))
  = mkStartNodeState (tickers_input (hooks id w)) true
                     (Some (length (sessions w))).
Proof.
  run_play; rewrite ?length_alter; reflexivity.
Qed.

Lemma onEvent_nodeStates id event w :
  nodeStates (world (onEvent id event w))
  = statuses_after_event id event (nodeStates w).
Proof.
  unfold onEvent, statuses_after_event.
  destruct (String.eqb _ "complete"); [reflexivity|].
  destruct (String.eqb _ "error"); reflexivity.
Qed.

Lemma onEvent_nodeContext id event w :
  nodeContext (world (onEvent id event w)) = nodeContext w.
Proof.
  unfold onEvent.
  destruct (String.eqb _ "complete"); [reflexivity|].
  destruct (String.eqb _ "error"); reflexivity.
Qed.

Lemma deliver_lookup handle event w s :
  sessions w !! handle = Some s →
  deliver handle event w = onEvent (handler_id s) event w.
Proof. intros H. unfold deliver. by rewrite H. Qed.

(** C2. Whatever the status map held before, right after [handlePlay] on the
    start node [id] the initiating node reads [IN_PROGRESS] and every other
    node id reads [IDLE]. *)
Theorem handlePlay_resets_all_but_initiator (id : string) (w : World) (m : string) :
  getStatus m (world (handlePlay id w))
  = if decide (m = id) then IN_PROGRESS else IDLE.
Proof.
  unfold getStatus. rewrite handlePlay_nodeStates.
  case_decide as Hm.
  - subst m. by rewrite lookup_insert_eq.
  - rewrite lookup_insert_ne by done. rewrite lookup_fmap.
    by destruct (nodeStates w !! m).
Qed.

Example handlePlay_resets_demo :
  getStatus "start" (world (handlePlay "start" demoWorld)) = IN_PROGRESS
  ∧ getStatus "agent" (world (handlePlay "start" demoWorld)) = IDLE
  ∧ getStatus "unseen" (world (handlePlay "start" demoWorld)) = IDLE.
Proof. vm_compute. auto. Qed.

Lemma opened_request_submitted id w :
  opened_request id w = Some (submitted id w).
Proof.
  unfold opened_request. rewrite handlePlay_sessions, last_snoc. reflexivity.
Qed.

(** C9, as stated, fails: a node whose id is the empty string is in the
    graph but not in the submitted [selected_agents]. *)
Lemma selected_agents_omits_blank_id :
  selected_agents <$> opened_request "start" blankIdWorld
  ≠ Some (node_id <$> rf_nodes blankIdWorld).
Proof. vm_compute. discriminate. Qed.

(** C9, amended. The [selected_agents] of the submitted request are the ids
    of the graph's nodes in graph order, keeping exactly the non-empty ones
    ([.filter(Boolean)]); neither the initiating node nor any other node with
    a non-empty id is left out, and when no id is empty the list is the full
    id list. *)
Theorem selected_agents_are_the_truthy_ids (id : string) (w : World) :
  selected_agents <$> opened_request id w
    = Some (List.filter Boolean (node_id <$> rf_nodes w))
  ∧ (∀ a, a ∈ List.filter Boolean (node_id <$> rf_nodes w)
          ↔ a ≠ "" ∧ ∃ n, n ∈ rf_nodes w ∧ node_id n = a)
  ∧ (Forall (fun n => node_id n ≠ "") (rf_nodes w) →
     selected_agents <$> opened_request id w = Some (node_id <$> rf_nodes w)).
Proof.
  rewrite opened_request_submitted. cbn [fmap option_fmap option_map submitted selected_agents].
  unfold selectedAgents.
  assert (HB : ∀ a, Boolean a = true ↔ a ≠ "").
  { intros a. unfold Boolean. rewrite negb_true_iff.
    destruct (String.eqb_spec a ""); split; congruence. }
  split; [reflexivity|]. split.
  - intros a. rewrite list_elem_of_In, filter_In, <- list_elem_of_In, HB.
    rewrite list_elem_of_fmap. split.
    + intros [(n & -> & Hn) Ha]. eauto.
    + intros [Ha (n & Hn & <-)]. eauto.
  - intros Hall. f_equal.
    induction Hall as [|n ns Hn _ IH]; [reflexivity|].
    cbn. apply HB in Hn. rewrite Hn. f_equal. exact IH.
Qed.

Lemma selected_agents_are_the_truthy_ids_witness :
  Forall (fun n => node_id n ≠ "") (rf_nodes demoWorld)
  ∧ selected_agents <$> opened_request "start" demoWorld
    = Some ["start"; "agent"].
Proof.
  assert (H : Forall (fun n => node_id n ≠ "") (rf_nodes demoWorld)).
  { repeat constructor; discriminate. }
  split; [exact H|].
  exact (proj2 (proj2 (selected_agents_are_the_truthy_ids "start" demoWorld)) H).
Defined.

(** C10. The [tickers] of the submitted request are the comma-separated
    segments of the input text, each trimmed: the segments contain no comma
    and joined by commas give the text back (so empty segments are kept, one
    segment more than there are commas); each submitted ticker is its
    segment without the white space at both ends.  ["AAPL,,MSFT"] yields
    [["AAPL"; ""; "MSFT"]].  When the text is empty or all white space the
    play button is disabled and a click does nothing. *)
Theorem tickers_are_split_on_commas_and_trimmed (id : string) (w : World) :
  let text := tickers_input (hooks id w) in
  let segments := JsString.split JsString.comma text in
  tickers <$> opened_request id w = Some (JsString.trim <$> segments)
  ∧ JsString.join JsString.comma segments = text
  ∧ Forall (fun seg => JsString.comma ∉ seg) segments
  ∧ length segments
    = S (length (List.filter (N.eqb JsString.comma) text))
  ∧ Forall (fun seg =>
        (∃ l r, seg = l ++ JsString.trim seg ++ r
                ∧ all_white_space l ∧ all_white_space r)
        ∧ (∀ c, head (JsString.trim seg) = Some c
                → JsString.is_white_space c = false)
        ∧ (∀ c, last (JsString.trim seg) = Some c
                → JsString.is_white_space c = false)) segments
  ∧ tickerList (JsString.of_string "AAPL,,MSFT")
    = JsString.of_string <$> ["AAPL"; ""; "MSFT"]
  ∧ (all_white_space text →
     playDisabled id w = true ∧ clickPlay id w = mkResult (Ret tt) w []).
Proof.
  intros text segments.
  split; [by rewrite opened_request_submitted|].
  split; [apply (split_go_join JsString.comma [] text)|].
  split; [apply split_go_no_sep, not_elem_of_nil|].
  split; [apply split_go_length|].
  split.
  { apply Forall_forall. intros seg _. split; [apply trim_decompose|].
    split; intros c; [apply trim_head | apply trim_last]. }
  split; [reflexivity|].
  intros Hws.
  assert (Hd : playDisabled id w = true).
  { unfold playDisabled. fold text. rewrite (trim_all_ws _ Hws). cbn.
    apply orb_true_r. }
  split; [exact Hd|]. unfold clickPlay. by rewrite Hd.
Qed.

Lemma tickers_are_split_on_commas_and_trimmed_witness :
  all_white_space (tickers_input (hooks "start" blankTextWorld))
  ∧ clickPlay "start" blankTextWorld = mkResult (Ret tt) blankTextWorld [].
Proof.
  assert (H : all_white_space (tickers_input (hooks "start" blankTextWorld))).
  { vm_compute. repeat constructor. }
  split; [exact H|].
  pose proof (tickers_are_split_on_commas_and_trimmed "start" blankTextWorld) as T.
  cbv zeta in T.
  destruct T as (_ & _ & _ & _ & _ & _ & T). exact (proj2 (T H)).
Defined.

(** C1, as stated, fails: R2 has been started, R1's handle has been invoked,
    and a queued [complete] event of R1 that reaches R1's callback still
    overwrites the status map.  So does, with the runs started from the play
    button, a late [error] event of R1 that arrives while R2 is in progress. *)
Lemma queued_event_of_cancelled_run_is_applied :
  (aborted <$> sessions twoRuns !! 0%nat = Some true
   ∧ getStatus "start" twoRuns = IN_PROGRESS
   ∧ getStatus "start" (world (deliver 0 (mkEvent "complete" []) twoRuns))
     = COMPLETE
   ∧ nodeStates (world (deliver 0 (mkEvent "complete" []) twoRuns))
     ≠ nodeStates twoRuns)
  ∧ (aborted <$> sessions restartedRun = [true; false]
     ∧ getStatus "start" restartedRun = IN_PROGRESS
     ∧ getStatus "start" (world (deliver 0 (mkEvent "error" []) restartedRun))
       = ERROR).
Proof.
  split; [|repeat split; reflexivity].
  split; [reflexivity|]. split; [reflexivity|]. split; [reflexivity|].
  intros H.
  assert (E : getStatus "start" (world (deliver 0 (mkEvent "complete" []) twoRuns))
              = getStatus "start" twoRuns) by (unfold getStatus; by rewrite H).
  vm_compute in E. discriminate.
Qed.

Lemma unmount_run id w handle :
  abortControllerRef (hooks id w) = Some handle →
  unmount id w
  = mkResult (Ret tt)
      (set_sessions (alter Api.mark_aborted handle (sessions w)) w)
      [C_abort handle].
Proof. intros Href. unfold unmount, bind. cbn. by rewrite Href. Qed.

(** C1, amended. A play on a start node that holds the handle of an earlier
    run invokes that handle once, after the status reset and before the new
    request is opened, and thereby marks the earlier stream as cancelled at
    the collaborator (unmounting the start node does the same and touches no
    status); stopping the stream is left to the collaborator.  The callback
    itself makes no liveness check: an event handed to the callback of a
    session, cancelled or not, is applied in the same way - [complete] and
    [error] overwrite the status of the node that started the run, any other
    type changes no status - and no event changes the Node Context Store. *)
Theorem cancelled_run_is_stopped_by_its_handle_only
    (id : string) (w : World) (handle : nat) (s : Session) :
  abortControllerRef (hooks id w) = Some handle →
  sessions w !! handle = Some s →
  let w2 := world (handlePlay id w) in
  let wu := world (unmount id w) in
  trace (handlePlay id w)
    = [C_resetAllStatuses; C_updateNodeStatus id IN_PROGRESS; C_abort handle;
       C_getNodes; C_runHedgeFund (submitted id w)]
  ∧ sessions w2 !! handle = Some (Api.mark_aborted s)
  ∧ nodeContext w2 = nodeContext w
  ∧ (sessions wu !! handle = Some (Api.mark_aborted s)
     ∧ nodeStates wu = nodeStates w ∧ nodeContext wu = nodeContext w)
  ∧ ∀ (event : Event) (w' : World) (s' : Session),
      sessions w' !! handle = Some s' →
      nodeStates (world (deliver handle event w'))
        = statuses_after_event (handler_id s') event (nodeStates w')
      ∧ nodeContext (world (deliver handle event w')) = nodeContext w'.
Proof.
  intros Href Hs w2 wu. split.
  { rewrite handlePlay_trace, Href. reflexivity. }
  split.
  { unfold w2. rewrite handlePlay_sessions. unfold after_cleanup.
    rewrite Href. rewrite lookup_app_l.
    - rewrite list_lookup_alter_eq, Hs. reflexivity.
    - rewrite length_alter. by apply lookup_lt_Some in Hs. }
  split; [apply handlePlay_frame|].
  split.
  { unfold wu. rewrite (unmount_run _ _ _ Href). cbn.
    rewrite list_lookup_alter_eq, Hs. done. }
  intros event w' s' Hs'. rewrite (deliver_lookup _ _ _ _ Hs').
  split; [apply onEvent_nodeStates | apply onEvent_nodeContext].
Qed.

Lemma cancelled_run_is_stopped_by_its_handle_only_witness :
  abortControllerRef (hooks "start" oneRun) = Some 0%nat
  ∧ (∃ s, sessions oneRun !! 0%nat = Some s)
  ∧ aborted <$> sessions (world (handlePlay "start" oneRun)) !! 0%nat
    = Some true.
Proof.
  assert (H1 : abortControllerRef (hooks "start" oneRun) = Some 0%nat)
    by reflexivity.
  assert (H2 : sessions oneRun !! 0%nat
               = Some (mkSession (submitted "start" demoWorld) "start" false))
    by reflexivity.
  split; [exact H1|]. split; [eexists; exact H2|].
  pose proof (cancelled_run_is_stopped_by_its_handle_only
                "start" oneRun 0%nat _ H1 H2) as T.
  cbv zeta in T. destruct T as (_ & T & _). rewrite T. reflexivity.
Defined.

End StartNodeProperties.

(** ** Saving and loading with complete state *)

Section ObjFacts.

Lemma Obj_get_set_eq k v o : Obj.get k (Obj.set k v o) = Some v.
Proof.
  induction o as [|[k' v'] o IH]; simpl.
  - by rewrite String.eqb_refl.
  - destruct (String.eqb k k') eqn:E; simpl; rewrite ?String.eqb_refl, ?E; done.
Qed.

Lemma Obj_get_set_ne k k' v o : k ≠ k' → Obj.get k' (Obj.set k v o) = Obj.get k' o.
Proof.
  intros Hne. induction o as [|[k0 v0] o IH]; simpl.
  - destruct (String.eqb_spec k' k); congruence.
  - destruct (String.eqb_spec k k0) as [->|Hk]; simpl.
    + destruct (String.eqb_spec k' k0); congruence.
    + destruct (String.eqb_spec k' k0); congruence.
Qed.

Lemma world_eta w :
  mkWorld (rf_nodes w) (nodeStates w) (nodeContext w) (currentFlowId w)
          (internalStates w) (startNodes w) (sessions w) (backend w)
          (previousFlowId w) = w.
Proof. by destruct w. Qed.

End ObjFacts.

Section SaveFacts.

Import EnhancedFlowActions NodeState NodeContext.

Variable save_impl :
  option string → option string → World → outcome (option Flow) * World.
Variable update_impl : Z → Flow → World → outcome Flow * World.

Abbreviation save := (saveCurrentFlowWithCompleteState save_impl update_impl).
Lemma mapM_enhanceNode ns w :
  mapM enhanceNode ns w
  = mkResult (Ret (enhanced w <$> ns)) w
             ((fun n => C_getNodeInternalState (node_id n)) <$> ns).
Proof.
  induction ns as [|n ns IH]; [reflexivity|].
  cbn [mapM]. unfold bind. cbn. rewrite IH. cbn.
  rewrite ?app_nil_r. reflexivity.
Qed.

Lemma save_run name description w :
  let w1 := set_rf_nodes (enhanced w <$> rf_nodes w) w in
  let ctx := JObj (nodeContext w) in
  save name description w =
  match save_impl name description w1 with
  | (Throw e, w2) =>
      mkResult (Ret None) (set_rf_nodes (rf_nodes w) w2)
        (save_prefix w ++ [C_saveCurrentFlow name description;
                           C_setNodes (rf_nodes w); C_console_error e])
  | (Ret None, w2) =>
      mkResult (Ret None) (set_rf_nodes (rf_nodes w) w2)
        (save_prefix w ++ [C_saveCurrentFlow name description;
                           C_setNodes (rf_nodes w)])
  | (Ret (Some saved), w2) =>
      let req := withNodeContextData saved ctx in
      match update_impl (flow_id saved) req w2 with
      | (Throw e, w3) =>
          mkResult (Ret None) (set_rf_nodes (rf_nodes w) w3)
            (save_prefix w ++ [C_saveCurrentFlow name description;
                               C_updateFlow (flow_id saved) req;
                               C_setNodes (rf_nodes w); C_console_error e])
      | (Ret updated, w3) =>
          mkResult (Ret (Some updated)) (set_rf_nodes (rf_nodes w) w3)
            (save_prefix w ++ [C_saveCurrentFlow name description;
                               C_updateFlow (flow_id saved) req;
                               C_setNodes (rf_nodes w)])
      end
  end.
Proof.
  intros w1 ctx.
  unfold saveCurrentFlowWithCompleteState, try_catch, try_finally, bind,
    saveCurrentFlow, updateFlow, call_ext, save_prefix.
  cbn. rewrite mapM_enhanceNode. cbn. fold w1.
  destruct (save_impl name description w1) as [[[saved|]|e] w2]; cbn.
  - destruct (update_impl _ _ w2) as [[updated|e] w3]; cbn;
      rewrite <- ?app_assoc; reflexivity.
  - rewrite <- ?app_assoc; reflexivity.
  - rewrite <- ?app_assoc; reflexivity.
Qed.

End SaveFacts.

Section LoadFacts.

Import EnhancedFlowActions NodeState NodeContext.

Variable load_impl : Flow → World → outcome unit * World.

Lemma forEach_restoreNode ns w :
  forEach restoreNode ns w
  = mkResult (Ret tt)
      (set_internalStates
         (restored (currentFlowId w) ns (internalStates w)) w)
      (restore_calls ns).
Proof.
  revert w. induction ns as [|n ns IH]; intros w.
  - cbn. unfold set_internalStates. by rewrite world_eta.
  - cbn [forEach]. unfold bind, restoreNode, restored, restore_calls.
    cbn [fold_left List.filter].
    destruct (truthy (internal_state_of n)); cbn; rewrite IH; reflexivity.
Qed.

Lemma load_run flow w :
  loadFlowWithCompleteState load_impl flow w =
  match load_impl flow (cleared flow w) with
  | (Throw e, w1) =>
      mkResult (Throw e) w1 (load_prefix flow ++ [C_console_error e])
  | (Ret _, w1) =>
      let ns := default [] (flow_nodes flow) in
      let w2 := set_internalStates
                  (restored (currentFlowId w1) ns (internalStates w1)) w1 in
      mkResult (Ret tt)
        (if truthy (nodeContextData_of flow)
         then set_nodeContext (entries (nodeContextData_of flow)) w2
         else w2)
        (load_prefix flow ++ restore_calls ns ++ import_calls flow
           ++ [C_console_log])
  end.
Proof.
  unfold loadFlowWithCompleteState, loadFlowWithCompleteState_body,
    try_catch, bind, loadFlow, call_ext, load_prefix, import_calls.
  cbn. fold (cleared flow w).
  destruct (load_impl flow (cleared flow w)) as [[[]|e] w1]; cbn; [|reflexivity].
  destruct (flow_nodes flow) as [ns|]; cbn.
  - rewrite forEach_restoreNode. cbn.
    destruct (truthy (nodeContextData_of flow)); cbn;
      rewrite <- ?app_assoc; reflexivity.
  - unfold set_internalStates at 1 2. rewrite world_eta.
    destruct (truthy (nodeContextData_of flow)); cbn; reflexivity.
Qed.

End LoadFacts.

Section FlowActionClaims.

Import EnhancedFlowActions NodeState NodeContext.

Lemma applied_node_lists_reads (ns : list Node) :
  applied_node_lists ((fun n => C_getNodeInternalState (node_id n)) <$> ns) = [].
Proof. induction ns as [|n ns IH]; [reflexivity|]. exact IH. Qed.

Lemma applied_node_lists_save_prefix w rest :
  applied_node_lists (save_prefix w ++ rest)
  = (enhanced w <$> rf_nodes w) :: applied_node_lists rest.
Proof.
  unfold applied_node_lists, save_prefix. rewrite !flat_map_app. cbn.
  fold (applied_node_lists
          ((fun n => C_getNodeInternalState (node_id n)) <$> rf_nodes w)).
  by rewrite applied_node_lists_reads.
Qed.

Lemma save_writes_live_graph_twice
    (save_impl : option string → option string → World
                 → outcome (option Flow) * World)
    (update_impl : Z → Flow → World → outcome Flow * World)
    (name description : option string) (w : World) :
  let r := saveCurrentFlowWithCompleteState save_impl update_impl
             name description w in
  rf_nodes (world r) = rf_nodes w
  ∧ applied_node_lists (trace r) = [enhanced w <$> rf_nodes w; rf_nodes w].
Proof.
  intros r. unfold r. rewrite save_run. cbv zeta.
  destruct (save_impl _ _ _) as [[[saved|]|e] w2].
  - destruct (update_impl _ _ _) as [[updated|e] w3];
      cbn [world trace]; rewrite applied_node_lists_save_prefix; split; reflexivity.
  - cbn [world trace]; rewrite applied_node_lists_save_prefix; split; reflexivity.
  - cbn [world trace]; rewrite applied_node_lists_save_prefix; split; reflexivity.
Qed.

(** C5. Whatever the base save and the update call do - succeed, return no
    flow, throw, or even overwrite the live graph themselves - the save
    writes the live graph exactly twice, first the enhanced node list and
    last the node list captured at its start, and when it returns the live
    graph is that captured list. *)
Theorem save_restores_live_graph
    (save_impl : option string → option string → World
                 → outcome (option Flow) * World)
    (update_impl : Z → Flow → World → outcome Flow * World)
    (name description : option string) (w : World) :
  let r := saveCurrentFlowWithCompleteState save_impl update_impl
             name description w in
  rf_nodes (world r) = rf_nodes w
  ∧ applied_node_lists (trace r) = [enhanced w <$> rf_nodes w; rf_nodes w].
Proof. apply save_writes_live_graph_twice. Qed.

(** C6. The save never ends by throwing.  A base save that throws or
    returns no flow, and an update call that throws, all make it return
    [null]; when both succeed it returns the record the update call
    answered with, and the record sent to that call is the saved flow with
    the exported node-context mapping under [data.nodeContextData]. *)
Theorem save_reports_failure_as_null
    (save_impl : option string → option string → World
                 → outcome (option Flow) * World)
    (update_impl : Z → Flow → World → outcome Flow * World)
    (name description : option string) (w : World) :
  let r := saveCurrentFlowWithCompleteState save_impl update_impl
             name description w in
  let w1 := set_rf_nodes (enhanced w <$> rf_nodes w) w in
  let ctx := JObj (nodeContext w) in
  (∃ o, out r = Ret o)
  ∧ (∀ e w2, save_impl name description w1 = (Throw e, w2) →
             out r = Ret None ∧ last (trace r) = Some (C_console_error e))
  ∧ (∀ w2, save_impl name description w1 = (Ret None, w2) → out r = Ret None)
  ∧ (∀ saved w2 e w3,
       save_impl name description w1 = (Ret (Some saved), w2) →
       update_impl (flow_id saved) (withNodeContextData saved ctx) w2
         = (Throw e, w3) →
       out r = Ret None ∧ last (trace r) = Some (C_console_error e))
  ∧ (∀ saved w2 updated w3,
       save_impl name description w1 = (Ret (Some saved), w2) →
       update_impl (flow_id saved) (withNodeContextData saved ctx) w2
         = (Ret updated, w3) →
       out r = Ret (Some updated)
       ∧ nodeContextData_of (withNodeContextData saved ctx) = ctx).
Proof.
  intros r w1 ctx. unfold r. rewrite save_run. cbv zeta. fold w1 ctx.
  split.
  { destruct (save_impl _ _ _) as [[[saved|]|e] w2]; [|by eexists..].
    destruct (update_impl _ _ _) as [[updated|e] w3]; by eexists. }
  split.
  { intros e w2 ->. cbn [out trace]. split; [done|]. by rewrite last_app. }
  split.
  { by intros w2 ->. }
  split.
  { intros saved w2 e w3 -> ->. cbn [out trace]. split; [done|].
    by rewrite last_app. }
  intros saved w2 updated w3 -> ->. split; [done|].
  unfold nodeContextData_of, withNodeContextData, Obj.spread, Obj.prop. cbn.
  by rewrite Obj_get_set_eq.
Qed.

Lemma save_reports_failure_as_null_witness :
  out (saveCurrentFlowWithCompleteState failing_saveCurrentFlow
         faithful_updateFlow None None savedWorld) = Ret None
  ∧ out (saveCurrentFlowWithCompleteState faithful_saveCurrentFlow
           failing_updateFlow None None savedWorld) = Ret None
  ∧ ∃ updated,
      out (saveCurrentFlowWithCompleteState faithful_saveCurrentFlow
             faithful_updateFlow None None savedWorld) = Ret (Some updated)
      ∧ nodeContextData_of updated = JObj [("A", JStr "msg")].
Proof.
  split; [|split].
  - pose proof (save_reports_failure_as_null failing_saveCurrentFlow
                  faithful_updateFlow None None savedWorld) as T.
    cbv zeta in T. destruct T as (_ & T & _).
    exact (proj1 (T _ _ eq_refl)).
  - pose proof (save_reports_failure_as_null faithful_saveCurrentFlow
                  failing_updateFlow None None savedWorld) as T.
    cbv zeta in T. destruct T as (_ & _ & _ & T & _).
    exact (proj1 (T _ _ _ _ eq_refl eq_refl)).
  - pose proof (save_reports_failure_as_null faithful_saveCurrentFlow
                  faithful_updateFlow None None savedWorld) as T.
    cbv zeta in T. destruct T as (_ & _ & _ & _ & T).
    eexists. split; [exact (proj1 (T _ _ _ _ eq_refl eq_refl))|].
    reflexivity.
Defined.

(** C7. When the body of the load ends by throwing - in particular when the
    base load throws - the load logs the error and ends by throwing the same
    value to its caller. *)
Theorem load_rethrows (load_impl : Flow → World → outcome unit * World)
    (flow : Flow) (w : World) :
  let r := loadFlowWithCompleteState load_impl flow w in
  (∀ e, out (loadFlowWithCompleteState_body load_impl flow w) = Throw e →
        out r = Throw e ∧ last (trace r) = Some (C_console_error e))
  ∧ (∀ e w1, load_impl flow (cleared flow w) = (Throw e, w1) →
             out r = Throw e
             ∧ trace r = load_prefix flow ++ [C_console_error e]).
Proof.
  intros r. split.
  - intros e He. unfold r, loadFlowWithCompleteState, try_catch.
    rewrite He. cbn [out trace]. split; [reflexivity|].
    rewrite last_app. reflexivity.
  - intros e w1 He. unfold r. rewrite load_run, He. split; reflexivity.
Qed.

Lemma load_rethrows_witness :
  failing_loadFlow flowF1 (cleared flowF1 savedWorld)
    = (Throw (JStr "load failed"), cleared flowF1 savedWorld)
  ∧ out (loadFlowWithCompleteState failing_loadFlow flowF1 savedWorld)
    = Throw (JStr "load failed")
  ∧ trace (loadFlowWithCompleteState failing_loadFlow flowF1 savedWorld)
    = [C_setNodeStateFlowId "1"; C_clearAllNodeStates; C_resetAllNodes;
       C_loadFlow flowF1; C_console_error (JStr "load failed")].
Proof.
  split; [reflexivity|].
  pose proof (load_rethrows failing_loadFlow flowF1 savedWorld) as T.
  cbv zeta in T. destruct T as (_ & T).
  exact (T _ _ eq_refl).
Defined.

Lemma restored_cons scope n ns m :
  restored scope (n :: ns) m
  = restored scope ns
      (if truthy (internal_state_of n)
       then <[(scope, node_id n) := internal_state_of n]> m else m).
Proof. reflexivity. Qed.

Lemma restored_lookup_other scope ns m key :
  (∀ n, n ∈ ns → truthy (internal_state_of n) = true →
        (scope, node_id n) ≠ key) →
  restored scope ns m !! key = m !! key.
Proof.
  revert m. induction ns as [|n ns IH]; intros m Hns; [reflexivity|].
  rewrite restored_cons.
  rewrite IH by (intros n' Hn'; apply Hns; by right).
  destruct (truthy (internal_state_of n)) eqn:Ht; [|reflexivity].
  apply lookup_insert_ne, Hns; [by left|done].
Qed.

Lemma restored_lookup_nodup scope ns m n :
  NoDup (node_id <$> ns) → n ∈ ns →
  restored scope ns m !! (scope, node_id n)
  = if truthy (internal_state_of n) then Some (internal_state_of n)
    else m !! (scope, node_id n).
Proof.
  revert m. induction ns as [|n0 ns IH]; intros m Hnd Hn.
  { by apply elem_of_nil in Hn. }
  rewrite fmap_cons in Hnd. apply NoDup_cons in Hnd as [Hfresh Hnd].
  rewrite restored_cons.
  apply elem_of_cons in Hn as [->|Hn].
  - rewrite restored_lookup_other.
    + destruct (truthy (internal_state_of n0)); [apply lookup_insert_eq|done].
    + intros n' Hn' _ [= Heq]. apply Hfresh. rewrite <- Heq.
      apply list_elem_of_fmap. eauto.
  - rewrite IH by done.
    destruct (truthy (internal_state_of n)); [reflexivity|].
    destruct (truthy (internal_state_of n0)); [|reflexivity].
    apply lookup_insert_ne. intros [= Heq]. apply Hfresh. rewrite Heq.
    apply list_elem_of_fmap. eauto.
Qed.

Lemma restore_calls_cons n ns :
  restore_calls (n :: ns)
  = (if truthy (internal_state_of n)
     then [C_setNodeInternalState (node_id n) (internal_state_of n)]
     else []) ++ restore_calls ns.
Proof.
  unfold restore_calls. cbn [List.filter].
  by destruct (truthy (internal_state_of n)).
Qed.

Lemma restore_call_reads n :
  restore_call n
  = if truthy (internal_state_of n)
    then Some (C_setNodeInternalState (node_id n) (internal_state_of n))
    else None.
Proof.
  unfold restore_call, internal_state_of, Obj.prop.
  destruct (node_data n) as [d|]; [|reflexivity].
  by destruct (Obj.get "internal_state" d).
Qed.

Lemma restore_calls_read_off nodes :
  restore_calls nodes = omap restore_call nodes.
Proof.
  induction nodes as [|n ns IH]; [reflexivity|].
  rewrite restore_calls_cons, IH. cbn [omap list_omap].
  rewrite restore_call_reads.
  by destruct (truthy (internal_state_of n)).
Qed.

Lemma internal_state_of_read_off node d v :
  node_data node = Some d → Obj.get "internal_state" d = Some v →
  internal_state_of node = v.
Proof. intros Hd Hv. unfold internal_state_of, Obj.prop. by rewrite Hd, Hv. Qed.

(** C8. Every load first sets the flow-scope identity, then clears the
    per-node internal state, then resets the Node Context Store, then runs
    the base load; only when the base load has returned does it restore the
    internal-state blobs of the flow's nodes, in node order, and last import
    the flow's node-context mapping (when it has one).  The restore calls
    are, read off the record, one per node whose data bucket carries a
    truthy [internal_state], with that value; and after a successful load
    of a record with distinct node ids such a node reads that value as its
    internal state.  Hence, with a base load that leaves the Node Context
    Store alone, loading a flow without node-context mapping after any
    other flow leaves the store empty. *)
Theorem load_runs_in_order (load_impl : Flow → World → outcome unit * World)
    (F1 F2 : Flow) (w : World) :
  let load := loadFlowWithCompleteState load_impl in
  trace (load F2 w)
    = match load_impl F2 (cleared F2 w) with
      | (Ret _, _) =>
          load_prefix F2 ++ restore_calls (default [] (flow_nodes F2))
            ++ import_calls F2 ++ [C_console_log]
      | (Throw e, _) => load_prefix F2 ++ [C_console_error e]
      end
  ∧ ((∀ f w0, nodeContext (load_impl f w0).2 = nodeContext w0) →
     truthy (nodeContextData_of F2) = false →
     nodeContext (world (load F2 (world (load F1 w)))) = [])
  ∧ restore_calls (default [] (flow_nodes F2))
    = omap restore_call (default [] (flow_nodes F2))
  ∧ (∀ nodes n d v,
       (load_impl F2 (cleared F2 w)).1 = Ret tt →
       currentFlowId (load_impl F2 (cleared F2 w)).2
         = currentFlowId (cleared F2 w) →
       internalStates (load_impl F2 (cleared F2 w)).2
         = internalStates (cleared F2 w) →
       flow_nodes F2 = Some nodes →
       NoDup (node_id <$> nodes) →
       n ∈ nodes →
       node_data n = Some d →
       Obj.get "internal_state" d = Some v →
       truthy v = true →
       NodeState.lookupInternalState (node_id n) (world (load F2 w)) = v).
Proof.
  intros load. split; [|split; [|split]].
  - unfold load. rewrite load_run.
    by destruct (load_impl F2 (cleared F2 w)) as [[[]|e] w1].
  - intros Hframe Hno. unfold load. rewrite (load_run _ F2).
    specialize (Hframe F2 (cleared F2 (world (loadFlowWithCompleteState load_impl F1 w)))).
    destruct (load_impl F2 _) as [[[]|e] w1]; cbn in *.
    + by rewrite Hno.
    + done.
  - apply restore_calls_read_off.
  - intros nodes n d v Hret Hscope Hint Hnodes Hnd Hn Hd Hv Ht.
    unfold load. rewrite load_run.
    destruct (load_impl F2 (cleared F2 w)) as [[[]|e] w1]; [|discriminate].
    cbv zeta. cbn [world]. rewrite Hnodes. change (default [] (Some nodes)) with nodes.
    pose proof (internal_state_of_read_off n d v Hd Hv) as Hiso.
    assert (Hl : restored (currentFlowId w1) nodes (internalStates w1)
                 !! (currentFlowId w1, node_id n) = Some v).
    { rewrite restored_lookup_nodup by done. by rewrite Hiso, Ht. }
    unfold NodeState.lookupInternalState.
    destruct (truthy (nodeContextData_of F2));
      unfold set_nodeContext, set_internalStates;
      cbn [currentFlowId internalStates]; by rewrite Hl.
Qed.

Lemma load_runs_in_order_witness :
  (∀ f w0, nodeContext (faithful_loadFlow f w0).2 = nodeContext w0)
  ∧ truthy (nodeContextData_of flowF2) = false
  ∧ nodeContext (world (loadFlowWithCompleteState faithful_loadFlow flowF1
                          emptyWorld)) = [("A", JStr "p")]
  ∧ nodeContext
      (world (loadFlowWithCompleteState faithful_loadFlow flowF2
                (world (loadFlowWithCompleteState faithful_loadFlow flowF1
                          emptyWorld)))) = []
  ∧ trace (loadFlowWithCompleteState faithful_loadFlow flowF1 emptyWorld)
    = [C_setNodeStateFlowId "1"; C_clearAllNodeStates; C_resetAllNodes;
       C_loadFlow flowF1;
       C_setNodeInternalState "A" (JObj [("x", JNum 1)]);
       C_importNodeContextData (JObj [("A", JStr "p")]);
       C_console_log]
  ∧ NodeState.lookupInternalState "A"
      (world (loadFlowWithCompleteState faithful_loadFlow flowF1 emptyWorld))
    = JObj [("x", JNum 1)].
Proof.
  assert (H1 : ∀ f w0, nodeContext (faithful_loadFlow f w0).2 = nodeContext w0)
    by reflexivity.
  assert (H2 : truthy (nodeContextData_of flowF2) = false) by reflexivity.
  split; [exact H1|]. split; [exact H2|]. split; [reflexivity|].
  pose proof (load_runs_in_order faithful_loadFlow flowF1 flowF2 emptyWorld) as T.
  cbv zeta in T. destruct T as (_ & T & _).
  split; [exact (T H1 H2)|].
  pose proof (load_runs_in_order faithful_loadFlow flowF2 flowF1 emptyWorld) as T'.
  cbv zeta in T'. destruct T' as (Ttrace & _ & Tcalls & Tstate).
  split.
  - rewrite Ttrace. cbn [faithful_loadFlow]. rewrite Tcalls. reflexivity.
  - refine (Tstate _ (mkNode "A" "agent"
                        (Some [("internal_state", JObj [("x", JNum 1)])]) [])
              _ _ eq_refl eq_refl eq_refl eq_refl _ _ eq_refl eq_refl eq_refl).
    + apply NoDup_singleton.
    + by left.
Defined.

Example load_order_demo :
  trace (loadFlowWithCompleteState faithful_loadFlow flowF1 savedWorld)
  = [C_setNodeStateFlowId "1"; C_clearAllNodeStates; C_resetAllNodes;
     C_loadFlow flowF1;
     C_setNodeInternalState "A" (JObj [("x", JNum 1)]);
     C_importNodeContextData (JObj [("A", JStr "p")]);
     C_console_log].
Proof. reflexivity. Qed.

(** C4, as stated, fails: node A has no internal-state blob (the layer
    reads [undefined] for it), yet its data bucket in the enhanced node list
    has an [internal_state] key. *)
Lemma stale_internal_state_key_is_kept :
  lookupInternalState "A" staleWorld = JUndefined
  ∧ hasStateToSave (lookupInternalState "A" staleWorld) = false
  ∧ head (applied_node_lists
            (trace (saveCurrentFlowWithCompleteState faithful_saveCurrentFlow
                      faithful_updateFlow None None staleWorld)))
    = Some [mkNode "A" "agent"
              (Some [("name", JStr "Agent A");
                     ("internal_state", JObj [("x", JNum 1)])]) []]
  ∧ Obj.has "internal_state"
      [("name", JStr "Agent A"); ("internal_state", JObj [("x", JNum 1)])]
    = true.
Proof. repeat split; reflexivity. Qed.

Lemma enhancedData_get_other data blob k :
  k ≠ "internal_state" →
  Obj.get k (enhancedData data blob) = Obj.get k (Obj.of_option data).
Proof.
  intros Hk. unfold enhancedData, Obj.spread.
  destruct (hasStateToSave blob); [|reflexivity].
  cbn. apply Obj_get_set_ne. congruence.
Qed.

Lemma enhancedData_get_state data blob :
  hasStateToSave blob = true →
  Obj.get "internal_state" (enhancedData data blob) = Some blob.
Proof.
  intros Hb. unfold enhancedData, Obj.spread. rewrite Hb. cbn.
  apply Obj_get_set_eq.
Qed.

Lemma enhancedData_unchanged data blob :
  hasStateToSave blob = false → enhancedData data blob = Obj.of_option data.
Proof. intros Hb. unfold enhancedData. by rewrite Hb. Qed.

Lemma hasStateToSave_has_own_keys v :
  hasStateToSave v = true ↔ has_own_keys v.
Proof.
  unfold hasStateToSave. destruct v as [| |b|n|s|l|o]; cbn.
  - split; [discriminate|done].
  - split; [discriminate|done].
  - rewrite andb_false_r. split; [discriminate|done].
  - rewrite andb_false_r. split; [discriminate|done].
  - rewrite length_fmap, length_seq. destruct s; cbn; [|done].
    split; [discriminate|done].
  - rewrite length_fmap, length_seq. destruct l; cbn; [|done].
    split; [discriminate|done].
  - rewrite length_fmap. destruct o; cbn; [|done].
    split; [discriminate|done].
Qed.

(** C4, amended. The enhanced node list is the live node list with each
    node's data bucket rebuilt.  For a node whose internal-state blob is
    absent or empty the bucket is left exactly as it was - so it has no
    [internal_state] key unless the live node's bucket already carried one;
    for a node with a non-empty blob the [internal_state] key holds that
    blob.  No other key is touched, and an [internal_state] key that was not
    there before is attached only when the blob is non-empty.  Absent and
    empty are meant by the shape of the blob: [undefined], [null] and the
    empty object [{}] leave the bucket alone, an object with a key is
    attached, and the test the save makes agrees with [has_own_keys]. *)
Theorem internal_state_is_attached_only_when_nonempty
    (save_impl : option string → option string → World
                 → outcome (option Flow) * World)
    (update_impl : Z → Flow → World → outcome Flow * World)
    (name description : option string) (w : World) :
  head (applied_node_lists
          (trace (saveCurrentFlowWithCompleteState save_impl update_impl
                    name description w)))
    = Some (enhanced w <$> rf_nodes w)
  ∧ ∀ node : Node,
      let blob := lookupInternalState (node_id node) w in
      let d := Obj.of_option (node_data node) in
      node_id (enhanced w node) = node_id node
      ∧ ∃ d', node_data (enhanced w node) = Some d'
          ∧ (hasStateToSave blob = false → d' = d)
          ∧ (hasStateToSave blob = false →
             Obj.has "internal_state" d = false →
             Obj.has "internal_state" d' = false)
          ∧ (hasStateToSave blob = true →
             Obj.get "internal_state" d' = Some blob)
          ∧ (Obj.has "internal_state" d' = true →
             hasStateToSave blob = true ∨ Obj.has "internal_state" d = true)
          ∧ (∀ k, k ≠ "internal_state" → Obj.get k d' = Obj.get k d)
          ∧ (hasStateToSave blob = true ↔ has_own_keys blob)
          ∧ (blob = JUndefined ∨ blob = JNull ∨ blob = JObj [] → d' = d)
          ∧ (¬ has_own_keys blob → d' = d)
          ∧ (has_own_keys blob → Obj.get "internal_state" d' = Some blob)
          ∧ (Obj.has "internal_state" d' = true →
             has_own_keys blob ∨ Obj.has "internal_state" d = true).
Proof.
  split.
  { destruct (save_writes_live_graph_twice save_impl update_impl
                name description w) as [_ ->]. reflexivity. }
  intros node blob d. split; [reflexivity|].
  assert (Hno : ¬ has_own_keys blob → hasStateToSave blob = false).
  { intros Hn. destruct (hasStateToSave blob) eqn:E; [|done].
    by apply hasStateToSave_has_own_keys in E. }
  assert (Hattached : Obj.has "internal_state"
                        (enhancedData (node_data node) blob) = true →
                      hasStateToSave blob = true
                      ∨ Obj.has "internal_state" d = true).
  { intros Hd'. destruct (hasStateToSave blob) eqn:Hb; [by left|right].
    by rewrite enhancedData_unchanged in Hd'. }
  eexists. split; [reflexivity|].
  split; [apply enhancedData_unchanged|].
  split; [intros Hb Hd; by rewrite enhancedData_unchanged|].
  split; [apply enhancedData_get_state|].
  split; [exact Hattached|].
  split; [intros k; apply enhancedData_get_other|].
  split; [apply hasStateToSave_has_own_keys|].
  split.
  { intros Hshape. apply enhancedData_unchanged, Hno.
    destruct Hshape as [->|[->| ->]]; cbn; auto. }
  split; [intros Hn; by apply enhancedData_unchanged, Hno|].
  split.
  { intros Hk. by apply enhancedData_get_state, hasStateToSave_has_own_keys. }
  intros Hd'. destruct (Hattached Hd') as [Hb|Hd]; [left|by right].
  by apply hasStateToSave_has_own_keys.
Qed.

Lemma internal_state_is_attached_only_when_nonempty_witness :
  (lookupInternalState "A" blobWorld = JObj [("x", JNum 1)]
   ∧ has_own_keys (JObj [("x", JNum 1)])
   ∧ ∃ d', node_data (enhanced blobWorld
                        (mkNode "A" "agent" (Some [("name", JStr "Agent A")]) []))
           = Some d'
           ∧ Obj.get "internal_state" d' = Some (JObj [("x", JNum 1)]))
  ∧ (lookupInternalState "B" blobWorld = JObj []
     ∧ ∃ d', node_data (enhanced blobWorld
                          (mkNode "B" "agent" (Some [("name", JStr "Agent B")]) []))
             = Some d'
             ∧ d' = [("name", JStr "Agent B")])
  ∧ (lookupInternalState "C" blobWorld = JUndefined
     ∧ ∃ d', node_data (enhanced blobWorld
                          (mkNode "C" "agent" (Some [("name", JStr "Agent C")]) []))
             = Some d'
             ∧ d' = [("name", JStr "Agent C")]).
Proof.
  assert (HA : lookupInternalState "A" blobWorld = JObj [("x", JNum 1)])
    by reflexivity.
  assert (HA' : has_own_keys (lookupInternalState "A" blobWorld))
    by (rewrite HA; discriminate).
  assert (HB : lookupInternalState "B" blobWorld = JObj []) by reflexivity.
  assert (HC : lookupInternalState "C" blobWorld = JUndefined) by reflexivity.
  destruct (internal_state_is_attached_only_when_nonempty
              faithful_saveCurrentFlow faithful_updateFlow None None blobWorld)
    as [_ T].
  destruct (T (mkNode "A" "agent" (Some [("name", JStr "Agent A")]) []))
    as (_ & dA & EA & _ & _ & _ & _ & _ & _ & _ & _ & GA & _).
  destruct (T (mkNode "B" "agent" (Some [("name", JStr "Agent B")]) []))
    as (_ & dB & EB & _ & _ & _ & _ & _ & _ & UB & _).
  destruct (T (mkNode "C" "agent" (Some [("name", JStr "Agent C")]) []))
    as (_ & dC & EC & _ & _ & _ & _ & _ & _ & UC & _).
  split; [|split].
  - split; [exact HA|]. split; [discriminate|].
    exists dA. split; [exact EA|]. rewrite <- HA. exact (GA HA').
  - split; [exact HB|]. exists dB. split; [exact EB|].
    exact (UB (or_intror (or_intror HB))).
  - split; [exact HC|]. exists dC. split; [exact EC|].
    exact (UC (or_introl HC)).
Defined.

Lemma internal_state_of_enhanced w node :
  hasStateToSave (lookupInternalState (node_id node) w) = true →
  internal_state_of (enhanced w node) = lookupInternalState (node_id node) w.
Proof.
  intros Hb. unfold internal_state_of, enhanced, Obj.prop. cbn.
  by rewrite enhancedData_get_state.
Qed.

Lemma hasStateToSave_truthy v : hasStateToSave v = true → truthy v = true.
Proof. unfold hasStateToSave. by intros [H _]%andb_true_iff. Qed.

Lemma restored_lookup scope ns m A b :
  (∀ n, n ∈ ns → node_id n = A → internal_state_of n = b) →
  truthy b = true →
  (∃ n, n ∈ ns ∧ node_id n = A) ∨ m !! (scope, A) = Some b →
  restored scope ns m !! (scope, A) = Some b.
Proof.
  intros Hall Hb. revert m.
  induction ns as [|n ns IH]; intros m Hin.
  - destruct Hin as [(n & Hn & _)|Hm]; [by apply elem_of_nil in Hn | exact Hm].
  - cbn [restored fold_left]. apply IH.
    + intros n' Hn'. apply Hall. by right.
    + destruct Hin as [(n' & Hn' & Hid)|Hm].
      * apply elem_of_cons in Hn' as [->|Hn']; [|left; eauto].
        right. rewrite (Hall n) by (done || by left). rewrite Hb, <- Hid.
        apply lookup_insert_eq.
      * right. destruct (truthy (internal_state_of n)) eqn:Ht; [|exact Hm].
        destruct (decide (node_id n = A)) as [Hid|Hne].
        -- rewrite (Hall n) by (done || by left). rewrite <- Hid.
           apply lookup_insert_eq.
        -- rewrite lookup_insert_ne by congruence. exact Hm.
Qed.

(** C3. Let node A be in the graph with a non-empty internal-state blob [b]
    and let the Node Context Store hold A -> [p].  With a persistence
    collaborator that keeps what it is given (the base save returns a flow
    whose nodes are the live graph, the update call returns the record it
    was sent) and a base load that returns and leaves the two stores alone,
    the save returns a record, and loading that record into any world - a
    fresh one in particular - gives A the internal state [b] and the Node
    Context Store the entry A -> [p] (indeed the whole store saved). *)
Theorem save_then_load_round_trip
    (save_impl : option string → option string → World
                 → outcome (option Flow) * World)
    (update_impl : Z → Flow → World → outcome Flow * World)
    (load_impl : Flow → World → outcome unit * World)
    (name description : option string) (w w' : World)
    (A : string) (b p : jsval) :
  (∃ n, n ∈ rf_nodes w ∧ node_id n = A) →
  lookupInternalState A w = b →
  hasStateToSave b = true →
  Obj.get A (nodeContext w) = Some p →
  (∀ n d w0, ∃ saved w2,
      save_impl n d w0 = (Ret (Some saved), w2)
      ∧ flow_nodes saved = Some (rf_nodes w0)) →
  (∀ id f w0, ∃ w3, update_impl id f w0 = (Ret f, w3)) →
  (∀ f w0, ∃ w1,
      load_impl f w0 = (Ret tt, w1)
      ∧ nodeContext w1 = nodeContext w0
      ∧ currentFlowId w1 = currentFlowId w0
      ∧ internalStates w1 = internalStates w0) →
  ∃ record,
    out (saveCurrentFlowWithCompleteState save_impl update_impl
           name description w) = Ret (Some record)
    ∧ let r := loadFlowWithCompleteState load_impl record w' in
      out r = Ret tt
      ∧ lookupInternalState A (world r) = b
      ∧ Obj.get A (nodeContext (world r)) = Some p
      ∧ nodeContext (world r) = nodeContext w.
Proof.
  intros HA Hb Hne Hp Hsave Hupdate Hload.
  rewrite save_run. cbv zeta.
  destruct (Hsave name description
              (set_rf_nodes (enhanced w <$> rf_nodes w) w))
    as (saved & w2 & -> & Hnodes).
  destruct (Hupdate (flow_id saved)
              (withNodeContextData saved (JObj (nodeContext w))) w2)
    as (w3 & ->).
  eexists. split; [reflexivity|]. cbv zeta.
  set (record := withNodeContextData saved (JObj (nodeContext w))).
  rewrite load_run.
  destruct (Hload record (cleared record w')) as (w1 & -> & Hctx & Hscope & Hint).
  assert (Hdata : nodeContextData_of record = JObj (nodeContext w)).
  { unfold nodeContextData_of, record, withNodeContextData, Obj.spread, Obj.prop.
    cbn. by rewrite Obj_get_set_eq. }
  rewrite Hdata. cbn [truthy out world entries].
  split; [reflexivity|]. split; [|split; [exact Hp | reflexivity]].
  unfold lookupInternalState. cbn. rewrite Hnodes.
  match goal with
  | |- default _ (?t !! _) = _ =>
      change t with (restored (currentFlowId w1) (enhanced w <$> rf_nodes w)
                              (internalStates w1))
  end.
  rewrite (restored_lookup _ _ _ A b); [reflexivity| |by apply hasStateToSave_truthy|].
  - intros n' (n & -> & Hn)%list_elem_of_fmap Hid. cbn in Hid.
    rewrite internal_state_of_enhanced; rewrite Hid, Hb; done.
  - left. destruct HA as (n & Hn & Hid). exists (enhanced w n).
    split; [|exact Hid]. apply list_elem_of_fmap. eauto.
Qed.

Lemma save_then_load_round_trip_witness :
  ∃ record,
    out (saveCurrentFlowWithCompleteState faithful_saveCurrentFlow
           faithful_updateFlow None None savedWorld) = Ret (Some record)
    ∧ lookupInternalState "A"
        (world (loadFlowWithCompleteState faithful_loadFlow record emptyWorld))
      = JObj [("x", JNum 1)]
    ∧ Obj.get "A"
        (nodeContext
           (world (loadFlowWithCompleteState faithful_loadFlow record
                     emptyWorld)))
      = Some (JStr "msg").
Proof.
  destruct (save_then_load_round_trip
              faithful_saveCurrentFlow faithful_updateFlow faithful_loadFlow
              None None savedWorld emptyWorld
              "A" (JObj [("x", JNum 1)]) (JStr "msg"))
    as (record & Hsave & _ & Hstate & Hentry & _).
  - eexists. split; [by left | reflexivity].
  - reflexivity.
  - reflexivity.
  - reflexivity.
  - intros n d w0. eexists _, _. split; reflexivity.
  - intros id f w0. eexists. reflexivity.
  - intros f w0. eexists. repeat split; reflexivity.
  - exists record. split; [exact Hsave|]. split; [exact Hstate | exact Hentry].
Defined.

End FlowActionClaims.

(** * Further properties of the two files *)

(** ** The start node: closed forms *)

Section StartNodeRuns.

Import StartNode NodeStatus.

Lemma hooks_insert_eq id st m w :
  hooks id (set_startNodes (<[id := st]> m) w) = st.
Proof. unfold hooks. cbn. by rewrite lookup_insert_eq. Qed.

Lemma hooks_insert_ne id id' st m w :
  id ≠ id' →
  hooks id' (set_startNodes (<[id := st]> m) w)
  = default initialStartNodeState (m !! id').
Proof. intros Hne. unfold hooks. cbn. by rewrite lookup_insert_ne. Qed.

Lemma handlePlay_world id w :
  world (handlePlay id w)
  = mkWorld (rf_nodes w)
            (<[id := IN_PROGRESS]> ((fun _ => IDLE) <$> nodeStates w))
            (nodeContext w) (currentFlowId w) (internalStates w)
            (<[id := hooks_after_play id w]> (startNodes w))
            (after_cleanup id w ++ [mkSession (submitted id w) id false])
            (backend w) (previousFlowId w).
Proof.
  unfold handlePlay, submitted, after_cleanup, hooks_after_play, bind. cbn.
  repeat (unfold hooks; cbn; rewrite ?lookup_insert_eq).
  destruct (abortControllerRef _); cbn;
    repeat (unfold hooks; cbn; rewrite ?lookup_insert_eq);
    rewrite ?insert_insert_eq, ?length_alter; reflexivity.
Qed.

Lemma onEvent_terminal_world id event w :
  is_terminal event = true →
  onEvent id event w
  = mkResult (Ret tt)
      (mkWorld (rf_nodes w)
               (<[id := terminal_status event]> (nodeStates w))
               (nodeContext w) (currentFlowId w) (internalStates w)
               (<[id := hooks_after_event (hooks id w)]> (startNodes w))
               (sessions w) (backend w) (previousFlowId w))
      [C_updateNodeStatus id (terminal_status event)].
Proof.
  unfold is_terminal, terminal_status, onEvent.
  destruct (String.eqb _ "complete"); [reflexivity|].
  destruct (String.eqb _ "error"); [reflexivity|discriminate].
Qed.

Lemma onEvent_other_world id event w :
  is_terminal event = false → onEvent id event w = mkResult (Ret tt) w [].
Proof.
  unfold is_terminal, onEvent.
  destruct (String.eqb _ "complete"); [discriminate|].
  destruct (String.eqb _ "error"); [discriminate|reflexivity].
Qed.

Lemma setTickers_world id text w :
  handleTickersChange id text w
  = mkResult (Ret tt)
      (set_startNodes
         (<[id := mkStartNodeState text (isProcessing (hooks id w))
                                   (abortControllerRef (hooks id w))]>
            (startNodes w)) w) [].
Proof. reflexivity. Qed.

Lemma unmount_none id w :
  abortControllerRef (hooks id w) = None →
  unmount id w = mkResult (Ret tt) w [].
Proof. intros Href. unfold unmount, bind. cbn. by rewrite Href. Qed.

Lemma perform_out a w : out (perform a w) = Ret tt.
Proof.
  destruct a as [id|id|id text|h event|id]; cbn [perform].
  - apply handlePlay_out.
  - unfold clickPlay. destruct (playDisabled id w); [reflexivity|apply handlePlay_out].
  - reflexivity.
  - unfold deliver. destruct (sessions w !! h) as [s|]; [|reflexivity].
    destruct (is_terminal event) eqn:E.
    + by rewrite onEvent_terminal_world.
    + by rewrite onEvent_other_world.
  - destruct (abortControllerRef (hooks id w)) as [h|] eqn:E.
    + by rewrite (unmount_run _ _ _ E).
    + by rewrite (unmount_none _ _ E).
Qed.

Lemma performAll_cons a acts w :
  world (performAll (a :: acts) w) = world (performAll acts (world (perform a w))).
Proof.
  unfold performAll. cbn [forEach]. unfold bind.
  rewrite perform_out. reflexivity.
Qed.

(** Whatever every single action keeps, every sequence of actions keeps. *)
Lemma performAll_keeps (P : World → Prop) :
  (∀ a w, P w → P (world (perform a w))) →
  ∀ acts w, P w → P (world (performAll acts w)).
Proof.
  intros Hstep acts. induction acts as [|a acts IH]; intros w Hw; [exact Hw|].
  rewrite performAll_cons. apply IH, Hstep, Hw.
Qed.

End StartNodeRuns.

(** ** The start node: what one action does *)

Section StartNodeSteps.

Import StartNode NodeStatus.

Abbreviation ref m w := (abortControllerRef (hooks m w)).

Lemma perform_click_started id w :
  playDisabled id w = false → perform (Click id) w = handlePlay id w.
Proof. intros H. cbn. unfold clickPlay. by rewrite H. Qed.

Lemma perform_click_disabled id w :
  playDisabled id w = true → perform (Click id) w = mkResult (Ret tt) w [].
Proof. intros H. cbn. unfold clickPlay. by rewrite H. Qed.

Lemma perform_starts a w id :
  starts a w = Some id → perform a w = handlePlay id w.
Proof.
  destruct a as [i|i|i t|h e|i]; cbn [starts]; try discriminate.
  - by intros [= ->].
  - destruct (playDisabled i w) eqn:E; [discriminate|].
    intros [= ->]. by apply perform_click_started.
Qed.

Lemma perform_sessions a w :
  sessions (world (perform a w))
  = match starts a w with
    | Some id => after_cleanup id w ++ [mkSession (submitted id w) id false]
    | None => match a with
              | Unmount id => after_cleanup id w
              | _ => sessions w
              end
    end.
Proof.
  destruct (starts a w) as [id|] eqn:Hs.
  { rewrite (perform_starts _ _ _ Hs), handlePlay_world. reflexivity. }
  destruct a as [i|i|i t|h e|i]; cbn [starts] in Hs; try discriminate.
  - destruct (playDisabled i w) eqn:E; [|discriminate].
    by rewrite perform_click_disabled.
  - reflexivity.
  - cbn [perform]. unfold deliver. destruct (sessions w !! h) as [s|]; [|reflexivity].
    destruct (is_terminal e) eqn:E.
    + by rewrite onEvent_terminal_world.
    + by rewrite onEvent_other_world.
  - cbn [perform]. unfold after_cleanup.
    destruct (ref i w) as [h|] eqn:E.
    + by rewrite (unmount_run _ _ _ E).
    + by rewrite (unmount_none _ _ E).
Qed.

Lemma perform_ref a w m :
  ref m (world (perform a w))
  = match starts a w with
    | Some id => if decide (m = id) then Some (length (sessions w)) else ref m w
    | None => ref m w
    end.
Proof.
  destruct (starts a w) as [id|] eqn:Hs.
  { rewrite (perform_starts _ _ _ Hs), handlePlay_world.
    case_decide as Hm.
    - subst m. unfold hooks at 1. cbn. by rewrite lookup_insert_eq.
    - unfold hooks at 1. cbn. by rewrite lookup_insert_ne. }
  destruct a as [i|i|i t|h e|i]; cbn [starts] in Hs; try discriminate.
  - destruct (playDisabled i w) eqn:E; [|discriminate].
    by rewrite perform_click_disabled.
  - cbn [perform]. rewrite setTickers_world. cbn [world].
    destruct (decide (i = m)) as [->|Hne].
    + by rewrite hooks_insert_eq.
    + by rewrite hooks_insert_ne.
  - cbn [perform]. unfold deliver. destruct (sessions w !! h) as [s|]; [|reflexivity].
    destruct (is_terminal e) eqn:E.
    + rewrite onEvent_terminal_world by done. cbn [world].
      unfold hooks at 1. cbn.
      destruct (decide (handler_id s = m)) as [->|Hne].
      * by rewrite lookup_insert_eq.
      * by rewrite lookup_insert_ne.
    + by rewrite onEvent_other_world.
  - cbn [perform]. destruct (ref i w) as [h|] eqn:E.
    + by rewrite (unmount_run _ _ _ E).
    + by rewrite (unmount_none _ _ E).
Qed.

Lemma perform_status a w m :
  getStatus m (world (perform a w))
  = match starts a w with
    | Some id => if decide (m = id) then IN_PROGRESS else IDLE
    | None =>
        match a with
        | Deliver h e =>
            match sessions w !! h with
            | Some s => if is_terminal e && bool_decide (m = handler_id s)
                        then terminal_status e else getStatus m w
            | None => getStatus m w
            end
        | _ => getStatus m w
        end
    end.
Proof.
  destruct (starts a w) as [id|] eqn:Hs.
  { rewrite (perform_starts _ _ _ Hs). unfold getStatus.
    rewrite handlePlay_world. cbn [nodeStates].
    case_decide as Hm.
    - subst m. by rewrite lookup_insert_eq.
    - rewrite lookup_insert_ne by done. rewrite lookup_fmap.
      by destruct (nodeStates w !! m). }
  destruct a as [i|i|i t|h e|i]; cbn [starts] in Hs; try discriminate.
  - destruct (playDisabled i w) eqn:E; [|discriminate].
    by rewrite perform_click_disabled.
  - reflexivity.
  - cbn [perform]. unfold deliver. destruct (sessions w !! h) as [s|]; [|reflexivity].
    destruct (is_terminal e) eqn:E; cbn [andb].
    + rewrite onEvent_terminal_world by done. unfold getStatus. cbn [world nodeStates].
      case_bool_decide as Hm.
      * subst m. by rewrite lookup_insert_eq.
      * rewrite lookup_insert_ne by done. reflexivity.
    + by rewrite onEvent_other_world.
  - cbn [perform]. destruct (ref i w) as [h|] eqn:E.
    + by rewrite (unmount_run _ _ _ E).
    + by rewrite (unmount_none _ _ E).
Qed.

End StartNodeSteps.

(** ** The start node: invariants of every sequence of actions *)

Section StartNodeInvariants.

Import StartNode NodeStatus.

Abbreviation ref m w := (abortControllerRef (hooks m w)).

Lemma after_cleanup_length id w :
  length (after_cleanup id w) = length (sessions w).
Proof.
  unfold after_cleanup. destruct (ref id w); [apply length_alter|reflexivity].
Qed.

Lemma after_cleanup_lookup id w h :
  after_cleanup id w !! h
  = (fun s => if bool_decide (ref id w = Some h)
              then Api.mark_aborted s else s) <$> sessions w !! h.
Proof.
  unfold after_cleanup. destruct (ref id w) as [h0|] eqn:E.
  - destruct (decide (h0 = h)) as [->|Hne].
    + rewrite list_lookup_alter_eq, bool_decide_eq_true_2 by done. reflexivity.
    + rewrite list_lookup_alter_ne by done.
      rewrite bool_decide_eq_false_2 by congruence.
      by destruct (sessions w !! h).
  - rewrite bool_decide_eq_false_2 by done. by destruct (sessions w !! h).
Qed.

(** The sessions after one action, read at an index that existed before. *)
Lemma perform_sessions_old a w h s :
  sessions w !! h = Some s →
  ∃ s', sessions (world (perform a w)) !! h = Some s'
        ∧ request s' = request s
        ∧ handler_id s' = handler_id s
        ∧ (aborted s = true → aborted s' = true)
        ∧ (aborted s' = false →
           aborted s = false ∧ starts a w ≠ Some (handler_id s)
           ∨ aborted s = false ∧ ref (handler_id s) w ≠ Some h).
Proof.
  intros Hs. rewrite perform_sessions.
  assert (Hac : ∀ id, ∃ s', after_cleanup id w !! h = Some s'
        ∧ request s' = request s ∧ handler_id s' = handler_id s
        ∧ (aborted s = true → aborted s' = true)
        ∧ (aborted s' = false → aborted s = false ∧ ref id w ≠ Some h)).
  { intros id. rewrite after_cleanup_lookup, Hs. cbn.
    case_bool_decide as Hb; eexists; (split; [reflexivity|]); cbn; naive_solver. }
  destruct (starts a w) as [id|] eqn:Hst.
  - destruct (Hac id) as (s' & Hl & Hr & Hh & Ha & Hb).
    exists s'. rewrite lookup_app_l
      by (rewrite after_cleanup_length; by apply lookup_lt_Some in Hs).
    repeat split; try done. intros Hf. destruct (Hb Hf) as [Hf' Hne].
    destruct (decide (id = handler_id s)) as [->|Hid]; [by right|left].
    split; [done|congruence].
  - destruct a as [i|i|i t|h' e|i];
      try (exists s; repeat split; try done; intros Hf; left; done).
    destruct (Hac i) as (s' & Hl & Hr & Hh & Ha & Hb).
    exists s'. repeat split; try done. intros Hf. left.
    split; [by apply Hb|done].
Qed.

Lemma perform_sessions_new a w h s' :
  sessions (world (perform a w)) !! h = Some s' →
  (∃ s, sessions w !! h = Some s)
  ∨ (h = length (sessions w) ∧ starts a w = Some (handler_id s')
     ∧ aborted s' = false).
Proof.
  rewrite perform_sessions. intros Hl.
  destruct (sessions w !! h) as [s|] eqn:Hs; [left; eauto|right].
  apply lookup_ge_None in Hs.
  destruct (starts a w) as [id|] eqn:Hst.
  - rewrite lookup_app_r in Hl by (rewrite after_cleanup_length; lia).
    rewrite after_cleanup_length in Hl.
    destruct (h - length (sessions w)) as [|k] eqn:Hk; [|by destruct k].
    cbn in Hl. injection Hl as <-. cbn. split; [lia|done].
  - exfalso. assert (is_Some (sessions w !! h)) as [? Hx]; [|apply lookup_lt_Some in Hx; lia].
    destruct a as [i|i|i t|h' e|i]; try by eexists.
    rewrite after_cleanup_lookup in Hl. destruct (sessions w !! h); [by eexists|done].
Qed.

Lemma perform_keeps_handles_held_are_own a w :
  handles_held_are_own w → handles_held_are_own (world (perform a w)).
Proof.
  intros Inv m h. rewrite perform_ref.
  assert (Hold : ref m w = Some h →
                 ∃ s, sessions (world (perform a w)) !! h = Some s
                      ∧ handler_id s = m).
  { intros Hr. destruct (Inv m h Hr) as (s & Hs & Hm).
    destruct (perform_sessions_old a w h s Hs) as (s' & Hl & _ & Hh & _).
    exists s'. split; [done|congruence]. }
  destruct (starts a w) as [id|] eqn:Hst; [|exact Hold].
  case_decide as Hm; [|exact Hold].
  intros [= <-]. subst m. rewrite perform_sessions, Hst.
  rewrite lookup_app_r by (rewrite after_cleanup_length; lia).
  rewrite after_cleanup_length, Nat.sub_diag. eexists. split; reflexivity.
Qed.

Lemma perform_keeps_live_stream_is_held a w :
  live_stream_is_held w → live_stream_is_held (world (perform a w)).
Proof.
  intros Inv h s' Hl Hlive. rewrite perform_ref.
  destruct (perform_sessions_new a w h s' Hl) as [[s Hs]|(Hh & Hst & _)].
  - destruct (perform_sessions_old a w h s Hs) as (s'' & Hl' & _ & Hid & _ & Hb).
    rewrite Hl in Hl'. injection Hl' as <-. rewrite Hid.
    assert (Hheld : ref (handler_id s) w = Some h)
      by (destruct (Hb Hlive) as [[Hf _]|[Hf _]]; by apply Inv).
    destruct (Hb Hlive) as [[_ Hne]|[_ Hne]]; [|done].
    destruct (starts a w) as [id|]; [|done].
    rewrite decide_False by congruence. done.
  - rewrite Hst. rewrite decide_True by done. by rewrite Hh.
Qed.

Lemma perform_keeps_at_most_one_in_progress a w :
  at_most_one_in_progress w → at_most_one_in_progress (world (perform a w)).
Proof.
  intros Inv x y. rewrite !perform_status.
  destruct (starts a w) as [id|].
  { repeat case_decide; congruence. }
  assert (Hterm : ∀ e, terminal_status e ≠ IN_PROGRESS)
    by (intros e; unfold terminal_status; by destruct (String.eqb _ _)).
  destruct a as [i|i|i t|h e|i]; try apply Inv.
  destruct (sessions w !! h) as [s|]; [|apply Inv].
  destruct (is_terminal e && bool_decide (x = handler_id s));
    destruct (is_terminal e && bool_decide (y = handler_id s));
    intros Hx Hy; try (by apply Hterm in Hx); try (by apply Hterm in Hy).
  by apply Inv.
Qed.

Lemma perform_keeps_only_played_nodes_are_coloured a w :
  only_played_nodes_are_coloured w →
  only_played_nodes_are_coloured (world (perform a w)).
Proof.
  intros [Inv1 Inv2]. split.
  - intros m. rewrite perform_status, perform_ref.
    destruct (starts a w) as [id|].
    { case_decide; [done|congruence]. }
    destruct a as [i|i|i t|h e|i]; try apply Inv1.
    destruct (sessions w !! h) as [s|] eqn:Hs; [|apply Inv1].
    destruct (is_terminal e); cbn [andb]; [|apply Inv1].
    case_bool_decide as Hm; [|apply Inv1].
    intros _. subst m. by apply (Inv2 h).
  - intros h s' Hl. rewrite perform_ref.
    destruct (perform_sessions_new a w h s' Hl) as [[s Hs]|(Hh & Hst & _)].
    + destruct (perform_sessions_old a w h s Hs) as (s'' & Hl' & _ & Hid & _).
      rewrite Hl in Hl'. injection Hl' as <-. rewrite Hid.
      destruct (starts a w) as [id|]; [|by apply (Inv2 h)].
      case_decide; [done|by apply (Inv2 h)].
    + rewrite Hst. by rewrite decide_True.
Qed.

Lemma sessions_grow_refl l : sessions_grow l l.
Proof. intros h s Hs. exists s. done. Qed.

Lemma sessions_grow_trans l1 l2 l3 :
  sessions_grow l1 l2 → sessions_grow l2 l3 → sessions_grow l1 l3.
Proof.
  intros H12 H23 h s Hs.
  destruct (H12 h s Hs) as (s2 & Hs2 & Hr2 & Hh2 & Ha2).
  destruct (H23 h s2 Hs2) as (s3 & Hs3 & Hr3 & Hh3 & Ha3).
  exists s3. repeat split; [done|congruence|congruence|auto].
Qed.

Lemma sessions_grow_length l1 l2 : sessions_grow l1 l2 → (length l1 ≤ length l2)%nat.
Proof.
  intros H. destruct (decide (length l1 ≤ length l2)%nat) as [|Hgt]; [done|].
  destruct (lookup_lt_is_Some_2 l1 (length l2)) as [s Hs]; [lia|].
  destruct (H _ _ Hs) as (s' & Hs' & _). apply lookup_lt_Some in Hs'. lia.
Qed.

Lemma perform_sessions_grow a w :
  sessions_grow (sessions w) (sessions (world (perform a w))).
Proof.
  intros h s Hs.
  destruct (perform_sessions_old a w h s Hs) as (s' & Hl & Hr & Hh & Ha & _).
  by exists s'.
Qed.

End StartNodeInvariants.

(** ** The start node: properties *)

Section StartNodeExtras.

Import StartNode NodeStatus.

Abbreviation ref m w := (abortControllerRef (hooks m w)).

Lemma trim_nil_all_ws s : JsString.trim s = [] ↔ all_white_space s.
Proof.
  split; [|apply trim_all_ws].
  intros Ht. destruct (trim_decompose s) as (l & r & Hs & Hl & Hr).
  rewrite Ht in Hs. rewrite Hs. by apply Forall_app.
Qed.

Lemma trim_subset s c : c ∈ JsString.trim s → c ∈ s.
Proof.
  intros Hc. destruct (trim_decompose s) as (l & r & Hs & _).
  rewrite Hs. rewrite !elem_of_app. auto.
Qed.

(** X1. The play button is enabled exactly when the start node is not
    processing and its ticker text has a character that is not white
    space. *)
Theorem play_button_enabled_iff (id : string) (w : World) :
  playDisabled id w = false
  ↔ isProcessing (hooks id w) = false
    ∧ ∃ c, c ∈ tickers_input (hooks id w)
           ∧ JsString.is_white_space c = false.
Proof.
  unfold playDisabled. rewrite orb_false_iff, negb_false_iff.
  set (text := tickers_input (hooks id w)).
  split; intros [Hp Ht]; (split; [exact Hp|]).
  - destruct (JsString.trim text) as [|c t] eqn:E; [discriminate|].
    exists c. split.
    + apply trim_subset. rewrite E. by left.
    + apply (trim_head text). by rewrite E.
  - destruct Ht as (c & Hc & Hws).
    destruct (JsString.trim text) as [|c' t] eqn:E; [|reflexivity].
    apply trim_nil_all_ws in E. unfold all_white_space in E.
    rewrite Forall_forall in E. specialize (E c Hc). congruence.
Qed.

Lemma play_button_enabled_iff_witness :
  (isProcessing (hooks "start" demoWorld) = false
   ∧ ∃ c, c ∈ tickers_input (hooks "start" demoWorld)
          ∧ JsString.is_white_space c = false)
  ∧ playDisabled "start" demoWorld = false.
Proof.
  assert (H : isProcessing (hooks "start" demoWorld) = false
              ∧ ∃ c, c ∈ tickers_input (hooks "start" demoWorld)
                     ∧ JsString.is_white_space c = false).
  { split; [reflexivity|]. exists 65%N. split; [by left|reflexivity]. }
  split; [exact H|].
  exact (proj2 (play_button_enabled_iff "start" demoWorld) H).
Defined.

(** X2. A click that starts a run sets the processing flag, opens exactly
    one session, and makes a second click do nothing: no call, no change. *)
Theorem second_click_does_nothing (id : string) (w : World) :
  playDisabled id w = false →
  let w1 := world (clickPlay id w) in
  isProcessing (hooks id w1) = true
  ∧ length (sessions w1) = S (length (sessions w))
  ∧ clickPlay id w1 = mkResult (Ret tt) w1 [].
Proof.
  intros Hen w1.
  assert (Hw1 : w1 = world (handlePlay id w))
    by (unfold w1, clickPlay; by rewrite Hen).
  assert (Hp : isProcessing (hooks id w1) = true).
  { rewrite Hw1, handlePlay_world. unfold hooks. cbn. by rewrite lookup_insert_eq. }
  split; [exact Hp|]. split.
  - rewrite Hw1, handlePlay_world. cbn [sessions].
    rewrite length_app, after_cleanup_length. cbn. lia.
  - unfold clickPlay, playDisabled. by rewrite Hp.
Qed.

Lemma second_click_does_nothing_witness :
  playDisabled "start" demoWorld = false
  ∧ clickPlay "start" (world (clickPlay "start" demoWorld))
    = mkResult (Ret tt) (world (clickPlay "start" demoWorld)) [].
Proof.
  assert (H : playDisabled "start" demoWorld = false) by reflexivity.
  split; [exact H|].
  exact (proj2 (proj2 (second_click_does_nothing "start" demoWorld H))).
Defined.

(** X3. A [complete] or [error] event that reaches the callback of a
    session sets the status of the start node that opened the session to
    [COMPLETE] or [ERROR] and clears that node's processing flag, keeping its
    text and held handle; every other node's status, every other start
    node's hook state, the sessions, the graph and the Node Context Store
    stay as they were. *)
Theorem terminal_event_effect (h : nat) (event : Event) (w : World) (s : Session) :
  sessions w !! h = Some s →
  is_terminal event = true →
  let id := handler_id s in
  let w' := world (deliver h event w) in
  getStatus id w' = terminal_status event
  ∧ hooks id w' = hooks_after_event (hooks id w)
  ∧ (∀ m, m ≠ id → getStatus m w' = getStatus m w ∧ hooks m w' = hooks m w)
  ∧ sessions w' = sessions w
  ∧ rf_nodes w' = rf_nodes w
  ∧ nodeContext w' = nodeContext w
  ∧ trace (deliver h event w) = [C_updateNodeStatus id (terminal_status event)].
Proof.
  intros Hs Ht id w'. unfold w'.
  rewrite (deliver_lookup _ _ _ _ Hs), (onEvent_terminal_world _ _ _ Ht).
  cbn [world trace]. fold id.
  split; [unfold getStatus; cbn; by rewrite lookup_insert_eq|].
  split; [unfold hooks at 1; cbn; by rewrite lookup_insert_eq|].
  split; [|done].
  intros m Hm. split.
  - unfold getStatus. cbn. by rewrite lookup_insert_ne.
  - unfold hooks. cbn. by rewrite lookup_insert_ne.
Qed.

Lemma terminal_event_effect_witness :
  sessions oneRun !! 0%nat
    = Some (mkSession (submitted "start" demoWorld) "start" false)
  ∧ is_terminal (mkEvent "error" []) = true
  ∧ getStatus "start" (world (deliver 0 (mkEvent "error" []) oneRun)) = ERROR
  ∧ isProcessing (hooks "start" (world (deliver 0 (mkEvent "error" []) oneRun)))
    = false.
Proof.
  assert (H1 : sessions oneRun !! 0%nat
               = Some (mkSession (submitted "start" demoWorld) "start" false))
    by reflexivity.
  assert (H2 : is_terminal (mkEvent "error" []) = true) by reflexivity.
  split; [exact H1|]. split; [exact H2|].
  pose proof (terminal_event_effect 0 (mkEvent "error" []) oneRun _ H1 H2) as T.
  cbv zeta in T. destruct T as (T1 & T2 & _).
  split; [exact T1|]. cbn [handler_id] in T2. rewrite T2. reflexivity.
Defined.

(** X4. An event whose type is neither [complete] nor [error], and any
    event for a handle no session was opened under, is dropped: no call is
    made and nothing changes - in particular nothing is forwarded to the
    Node Context Store. *)
Theorem other_events_are_dropped (h : nat) (event : Event) (w : World) :
  is_terminal event = false ∨ sessions w !! h = None →
  deliver h event w = mkResult (Ret tt) w [].
Proof.
  intros [Ht|Hn]; unfold deliver.
  - destruct (sessions w !! h); [by apply onEvent_other_world|reflexivity].
  - by rewrite Hn.
Qed.

Lemma other_events_are_dropped_witness :
  is_terminal (mkEvent "progress" [("agent", JStr "agent")]) = false
  ∧ deliver 0 (mkEvent "progress" [("agent", JStr "agent")]) oneRun
    = mkResult (Ret tt) oneRun [].
Proof.
  assert (H : is_terminal (mkEvent "progress" [("agent", JStr "agent")]) = false)
    by reflexivity.
  split; [exact H|].
  exact (other_events_are_dropped 0 _ oneRun (or_introl H)).
Defined.

(** X5. [handlePlay] on start node [id] leaves the graph, the Node Context
    Store, the internal-state layer with its scope and the persisted flows
    untouched, and every other start node's hook state too; its own text is
    kept, its processing flag is set, and the handle it now holds is a fresh
    one: the index of the session just opened, which is live and calls back
    into [id]. *)
Theorem handlePlay_touches_only_its_run (id : string) (w : World) :
  let w' := world (handlePlay id w) in
  rf_nodes w' = rf_nodes w
  ∧ nodeContext w' = nodeContext w
  ∧ currentFlowId w' = currentFlowId w
  ∧ internalStates w' = internalStates w
  ∧ backend w' = backend w
  ∧ (∀ m, m ≠ id → hooks m w' = hooks m w)
  ∧ hooks id w' = hooks_after_play id w
  ∧ sessions w !! length (sessions w) = None
  ∧ sessions w' !! length (sessions w)
    = Some (mkSession (submitted id w) id false).
Proof.
  intros w'. unfold w'. rewrite handlePlay_world. cbn.
  repeat split.
  - intros m Hm. unfold hooks. cbn. by rewrite lookup_insert_ne.
  - unfold hooks at 1. cbn. by rewrite lookup_insert_eq.
  - by apply lookup_ge_None.
  - rewrite lookup_app_r by (rewrite after_cleanup_length; lia).
    by rewrite after_cleanup_length, Nat.sub_diag.
Qed.

(** X6. Through any sequence of plays, clicks, edits, delivered events and
    unmounts, the run-request collaborator's sessions only grow: a session
    keeps its index, its request and its callback, and once its handle has
    been invoked it stays cancelled. *)
Theorem sessions_only_grow (acts : list Action) (w : World) :
  sessions_grow (sessions w) (sessions (world (performAll acts w)))
  ∧ (length (sessions w) ≤ length (sessions (world (performAll acts w))))%nat.
Proof.
  assert (H : sessions_grow (sessions w) (sessions (world (performAll acts w)))).
  { apply (performAll_keeps (fun w' => sessions_grow (sessions w) (sessions w'))).
    - intros a w1 H1. eapply sessions_grow_trans; [exact H1|].
      apply perform_sessions_grow.
    - apply sessions_grow_refl. }
  split; [exact H|by apply sessions_grow_length].
Qed.

(** X7. If every handle a start node holds is the handle of a session that
    start node opened, this stays so through any sequence of actions: a
    start node never holds - and so never invokes - the handle of another
    start node's run, nor a handle that was never issued. *)
Theorem held_handles_stay_own (acts : list Action) (w : World) :
  handles_held_are_own w →
  handles_held_are_own (world (performAll acts w)).
Proof.
  apply (performAll_keeps handles_held_are_own).
  apply perform_keeps_handles_held_are_own.
Qed.

Lemma emptyWorld_ref m : ref m emptyWorld = None.
Proof. reflexivity. Qed.

Lemma held_handles_stay_own_witness :
  handles_held_are_own emptyWorld
  ∧ handles_held_are_own (world (performAll demoActions emptyWorld)).
Proof.
  assert (H : handles_held_are_own emptyWorld).
  { intros m h Hm. rewrite emptyWorld_ref in Hm. discriminate. }
  split; [exact H|]. exact (held_handles_stay_own demoActions emptyWorld H).
Defined.

(** X8. If every live session (one whose handle was never invoked) is the
    one its start node holds, this stays so through any sequence of
    actions; hence a start node has at most one live session at any time:
    starting a run cancels the start node's previous one. *)
Theorem one_live_stream_per_start_node (acts : list Action) (w : World) :
  live_stream_is_held w →
  let w' := world (performAll acts w) in
  live_stream_is_held w'
  ∧ ∀ h1 h2 s1 s2,
      sessions w' !! h1 = Some s1 → sessions w' !! h2 = Some s2 →
      aborted s1 = false → aborted s2 = false →
      handler_id s1 = handler_id s2 → h1 = h2.
Proof.
  intros Inv w'.
  assert (H : live_stream_is_held w').
  { apply (performAll_keeps live_stream_is_held); [|exact Inv].
    apply perform_keeps_live_stream_is_held. }
  split; [exact H|].
  intros h1 h2 s1 s2 H1 H2 L1 L2 Hid.
  pose proof (H h1 s1 H1 L1) as R1. pose proof (H h2 s2 H2 L2) as R2.
  rewrite Hid in R1. congruence.
Qed.

Lemma one_live_stream_per_start_node_witness :
  live_stream_is_held emptyWorld
  ∧ live_stream_is_held (world (performAll demoActions emptyWorld))
  ∧ aborted <$> sessions (world (performAll demoActions emptyWorld))
    = [true; true; false].
Proof.
  assert (H : live_stream_is_held emptyWorld).
  { intros h s Hs. cbn in Hs. by rewrite lookup_nil in Hs. }
  split; [exact H|].
  split; [|reflexivity].
  exact (proj1 (one_live_stream_per_start_node demoActions emptyWorld H)).
Defined.

(** X9. If at most one node reads [IN_PROGRESS], this stays so through any
    sequence of actions: a play resets every other node, and an event only
    ever writes [COMPLETE] or [ERROR]. *)
Theorem in_progress_is_unique (acts : list Action) (w : World) :
  at_most_one_in_progress w →
  at_most_one_in_progress (world (performAll acts w)).
Proof.
  apply (performAll_keeps at_most_one_in_progress).
  apply perform_keeps_at_most_one_in_progress.
Qed.

Lemma in_progress_is_unique_witness :
  at_most_one_in_progress emptyWorld
  ∧ at_most_one_in_progress (world (performAll demoActions emptyWorld))
  ∧ getStatus "start" (world (performAll demoActions emptyWorld)) = IN_PROGRESS
  ∧ getStatus "other" (world (performAll demoActions emptyWorld)) = ERROR.
Proof.
  assert (H : at_most_one_in_progress emptyWorld).
  { intros a b Ha. vm_compute in Ha. discriminate. }
  split; [exact H|].
  split; [exact (in_progress_is_unique demoActions emptyWorld H)|].
  split; reflexivity.
Defined.

(** X10. If only start nodes that have played read a status other than
    [IDLE] (and every session belongs to a start node that has played),
    this stays so through any sequence of actions: the start node never
    colours an agent node. *)
Theorem only_start_nodes_get_a_status (acts : list Action) (w : World) :
  only_played_nodes_are_coloured w →
  only_played_nodes_are_coloured (world (performAll acts w)).
Proof.
  apply (performAll_keeps only_played_nodes_are_coloured).
  apply perform_keeps_only_played_nodes_are_coloured.
Qed.

Lemma only_start_nodes_get_a_status_witness :
  only_played_nodes_are_coloured emptyWorld
  ∧ only_played_nodes_are_coloured (world (performAll demoActions emptyWorld)).
Proof.
  assert (H : only_played_nodes_are_coloured emptyWorld).
  { split.
    - intros m Hm. exfalso. apply Hm. reflexivity.
    - intros h s Hs. cbn in Hs. by rewrite lookup_nil in Hs. }
  split; [exact H|].
  exact (only_start_nodes_get_a_status demoActions emptyWorld H).
Defined.

End StartNodeExtras.

Section StartNodeExtras2.

Import StartNode NodeStatus.

Abbreviation ref m w := (abortControllerRef (hooks m w)).

Lemma alter_mark_aborted_twice h (l : list Session) :
  alter Api.mark_aborted h (alter Api.mark_aborted h l)
  = alter Api.mark_aborted h l.
Proof.
  apply list_eq. intros i. destruct (decide (i = h)) as [->|Hne].
  - rewrite !list_lookup_alter_eq. by destruct (l !! h).
  - by rewrite !list_lookup_alter_ne.
Qed.

(** X11. The unmount clean-up does nothing when the start node holds no
    handle; otherwise it invokes the held handle - that one session becomes
    cancelled, no other - and nothing else: statuses, hook state (the
    processing flag and the held handle included), graph and stores stay as
    they were, and running it again changes nothing more. *)
Theorem unmount_cancels_only_the_held_run (id : string) (w : World) :
  let r := unmount id w in
  (ref id w = None → r = mkResult (Ret tt) w [])
  ∧ (∀ h, ref id w = Some h →
          trace r = [C_abort h]
          ∧ sessions (world r) = alter Api.mark_aborted h (sessions w))
  ∧ nodeStates (world r) = nodeStates w
  ∧ startNodes (world r) = startNodes w
  ∧ rf_nodes (world r) = rf_nodes w
  ∧ nodeContext (world r) = nodeContext w
  ∧ world (unmount id (world r)) = world r.
Proof.
  intros r. unfold r.
  destruct (ref id w) as [h|] eqn:E.
  - rewrite (unmount_run _ _ _ E). cbn [world trace].
    split; [discriminate|]. split; [by intros ? [= <-]|].
    do 4 (split; [reflexivity|]).
    rewrite (unmount_run _ _ h) by exact E. cbn.
    unfold set_sessions. cbn. by rewrite alter_mark_aborted_twice.
  - rewrite (unmount_none _ _ E). cbn [world trace].
    split; [done|]. split; [discriminate|].
    do 4 (split; [reflexivity|]). by rewrite (unmount_none _ _ E).
Qed.

Lemma unmount_cancels_only_the_held_run_witness :
  ref "start" oneRun = Some 0%nat
  ∧ aborted <$> sessions (world (unmount "start" oneRun)) = [true]
  ∧ ref "start" emptyWorld = None
  ∧ unmount "start" emptyWorld = mkResult (Ret tt) emptyWorld [].
Proof.
  assert (H1 : ref "start" oneRun = Some 0%nat) by reflexivity.
  assert (H2 : ref "start" emptyWorld = None) by reflexivity.
  split; [exact H1|]. split.
  - destruct (unmount_cancels_only_the_held_run "start" oneRun) as (_ & T & _).
    destruct (T _ H1) as [_ ->]. reflexivity.
  - split; [exact H2|].
    exact (proj1 (unmount_cancels_only_the_held_run "start" emptyWorld) H2).
Defined.

Lemma split_go_app_no_sep sep cur x rest :
  sep ∉ x →
  JsString.split_go sep cur (x ++ rest)
  = JsString.split_go sep (rev x ++ cur) rest.
Proof.
  revert cur. induction x as [|c x IH]; intros cur Hx; [reflexivity|].
  apply not_elem_of_cons in Hx as [Hc Hx]. cbn.
  destruct (N.eqb_spec c sep) as [->|_]; [done|].
  rewrite IH by done. cbn. by rewrite <- app_assoc.
Qed.

Lemma split_go_join_inv sep cur x rest :
  Forall (fun seg => sep ∉ seg) (x :: rest) →
  JsString.split_go sep cur (JsString.join sep (x :: rest))
  = (rev cur ++ x) :: rest.
Proof.
  revert cur x. induction rest as [|y rest IH]; intros cur x Hall.
  - cbn [JsString.join]. rewrite <- (app_nil_r x) at 1.
    rewrite split_go_app_no_sep by (by inversion Hall). cbn.
    by rewrite rev_app_distr, rev_involutive.
  - inversion Hall as [|? ? Hx Hrest]; subst.
    rewrite join_cons by done.
    rewrite split_go_app_no_sep by done. cbn [JsString.split_go].
    rewrite N.eqb_refl. rewrite (IH [] y Hrest). cbn [rev app].
    by rewrite rev_app_distr, rev_involutive.
Qed.

Lemma trimStart_fixed s :
  (∀ c, head s = Some c → JsString.is_white_space c = false) →
  JsString.trimStart s = s.
Proof.
  destruct s as [|c s]; [done|]. intros H. cbn. by rewrite (H c).
Qed.

Lemma head_rev_last (s : JsString.t) : head (rev s) = last s.
Proof. by rewrite <- last_rev_head, rev_involutive. Qed.

Lemma trim_fixed s :
  (∀ c, head s = Some c → JsString.is_white_space c = false) →
  (∀ c, last s = Some c → JsString.is_white_space c = false) →
  JsString.trim s = s.
Proof.
  intros Hh Hl. unfold JsString.trim, JsString.trimEnd.
  rewrite (trimStart_fixed s) by exact Hh.
  rewrite (trimStart_fixed (rev s))
    by (intros c; rewrite head_rev_last; apply Hl).
  apply rev_involutive.
Qed.

Lemma trim_idempotent s : JsString.trim (JsString.trim s) = JsString.trim s.
Proof. apply trim_fixed; intros c; [apply trim_head | apply trim_last]. Qed.

(** X12. The ticker list is a normal form of the text.  Text written as
    comma-free, already trimmed tickers joined by commas is read back as
    exactly those tickers; and joining any submitted ticker list by commas
    and reading it again gives the same list. *)
Theorem tickerList_reads_back (text : JsString.t) (tks : list JsString.t) :
  (tks ≠ [] →
   Forall clean_ticker tks →
   tickerList (JsString.join JsString.comma tks) = tks)
  ∧ tickerList (JsString.join JsString.comma (tickerList text))
    = tickerList text.
Proof.
  assert (Hback : ∀ l, l ≠ [] →
            Forall clean_ticker l →
            tickerList (JsString.join JsString.comma l) = l).
  { intros [|x rest] Hne Hall; [done|]. unfold tickerList, JsString.split.
    rewrite split_go_join_inv
      by (eapply Forall_impl; [exact Hall|]; by intros ? [? _]).
    cbn [rev app]. apply list_eq. intros i. rewrite list_lookup_fmap.
    destruct ((x :: rest) !! i) as [t|] eqn:E; [|reflexivity]. cbn.
    f_equal. rewrite Forall_forall in Hall.
    apply (Hall t). by apply list_elem_of_lookup_2 in E. }
  split; [apply Hback|]. apply Hback.
  - unfold tickerList, JsString.split. intros H.
    apply fmap_nil_inv in H. by apply split_go_nonempty in H.
  - unfold tickerList. apply Forall_fmap, Forall_forall. intros seg Hseg. cbn.
    split; [|apply trim_idempotent].
    intros Hc. apply trim_subset in Hc.
    pose proof (split_go_no_sep JsString.comma [] text (not_elem_of_nil _)) as Hns.
    rewrite Forall_forall in Hns. by apply (Hns seg).
Qed.

Lemma tickerList_reads_back_witness :
  JsString.of_string <$> ["AAPL"; ""; "BRK B"] ≠ []
  ∧ tickerList (JsString.of_string "AAPL,,BRK B")
    = JsString.of_string <$> ["AAPL"; ""; "BRK B"].
Proof.
  assert (H1 : JsString.of_string <$> ["AAPL"; ""; "BRK B"] ≠ []) by discriminate.
  split; [exact H1|].
  refine (proj1 (tickerList_reads_back [] _) H1 _).
  repeat constructor; try reflexivity; apply (bool_decide_unpack _); by vm_compute.
Defined.

(** X13. A run started from the play button and ended by a [complete] or
    [error] event on its own session leaves the start node with that
    terminal status, every other node [IDLE], and the play button enabled
    again: the run can be restarted. *)
Theorem finished_run_can_be_restarted (id : string) (w : World) (event : Event) :
  playDisabled id w = false →
  is_terminal event = true →
  let w1 := world (clickPlay id w) in
  let w2 := world (deliver (length (sessions w)) event w1) in
  getStatus id w2 = terminal_status event
  ∧ (∀ m, m ≠ id → getStatus m w2 = IDLE)
  ∧ playDisabled id w2 = false.
Proof.
  intros Hen Ht w1 w2.
  assert (Hw1 : w1 = world (handlePlay id w))
    by (unfold w1, clickPlay; by rewrite Hen).
  assert (Hs : sessions w1 !! length (sessions w)
               = Some (mkSession (submitted id w) id false)).
  { rewrite Hw1, handlePlay_world. cbn [sessions].
    rewrite lookup_app_r by (rewrite after_cleanup_length; lia).
    by rewrite after_cleanup_length, Nat.sub_diag. }
  assert (Hw2 : w2 = world (onEvent id event w1))
    by (unfold w2; by rewrite (deliver_lookup _ _ _ _ Hs)).
  assert (Hh1 : hooks id w1 = hooks_after_play id w).
  { rewrite Hw1, handlePlay_world. unfold hooks at 1. cbn.
    by rewrite lookup_insert_eq. }
  assert (Hh2 : hooks id w2 = hooks_after_event (hooks id w1)).
  { rewrite Hw2, (onEvent_terminal_world _ _ _ Ht). unfold hooks at 1. cbn.
    by rewrite lookup_insert_eq. }
  split; [|split].
  - rewrite Hw2, (onEvent_terminal_world _ _ _ Ht). unfold getStatus. cbn.
    by rewrite lookup_insert_eq.
  - intros m Hm. rewrite Hw2, (onEvent_terminal_world _ _ _ Ht).
    unfold getStatus. cbn. rewrite lookup_insert_ne by done.
    rewrite Hw1, handlePlay_world. cbn. rewrite lookup_insert_ne by done.
    rewrite lookup_fmap. by destruct (nodeStates w !! m).
  - unfold playDisabled in Hen |- *.
    apply orb_false_iff in Hen as [_ Htext].
    rewrite Hh2, Hh1. exact Htext.
Qed.

Lemma finished_run_can_be_restarted_witness :
  playDisabled "start" demoWorld = false
  ∧ is_terminal (mkEvent "complete" []) = true
  ∧ playDisabled "start"
      (world (deliver 0 (mkEvent "complete" [])
                (world (clickPlay "start" demoWorld)))) = false.
Proof.
  assert (H1 : playDisabled "start" demoWorld = false) by reflexivity.
  assert (H2 : is_terminal (mkEvent "complete" []) = true) by reflexivity.
  split; [exact H1|]. split; [exact H2|].
  exact (proj2 (proj2 (finished_run_can_be_restarted "start" demoWorld
                         (mkEvent "complete" []) H1 H2))).
Defined.

End StartNodeExtras2.

(** ** Saving and loading: further properties *)

Section FlowActionExtras.

Import EnhancedFlowActions NodeState NodeContext.

Lemma Obj_set_keys k v o :
  (Obj.set k v o).*1 = if Obj.has k o then o.*1 else o.*1 ++ [k].
Proof.
  unfold Obj.has. induction o as [|[k' v'] o IH]; [reflexivity|]. cbn.
  destruct (String.eqb_spec k k') as [->|Hne]; [reflexivity|].
  cbn. rewrite IH. by destruct (Obj.get k o).
Qed.

Lemma Obj_set_same k v o : Obj.get k o = Some v → Obj.set k v o = o.
Proof.
  induction o as [|[k' v'] o IH]; [discriminate|]. cbn.
  destruct (String.eqb_spec k k') as [->|Hne].
  - by intros [= ->].
  - intros H. by rewrite IH.
Qed.

Lemma Obj_set_set k v o : Obj.set k v (Obj.set k v o) = Obj.set k v o.
Proof. apply Obj_set_same, Obj_get_set_eq. Qed.

(** X14. Enhancing a node never reorders, drops or duplicates a key of its
    data bucket: the keys stay as they are, except that [internal_state]
    is appended when the blob is non-empty and the key was not there; and
    enhancing an enhanced node changes nothing. *)
Theorem enhancing_keeps_the_keys (w : World) (node : Node) :
  let blob := lookupInternalState (node_id node) w in
  let d := Obj.of_option (node_data node) in
  (enhancedData (node_data node) blob).*1
    = (if hasStateToSave blob && negb (Obj.has "internal_state" d)
       then d.*1 ++ ["internal_state"] else d.*1)
  ∧ enhanced w (enhanced w node) = enhanced w node.
Proof.
  intros blob d. unfold enhanced, enhancedData, Obj.spread. cbn. fold blob d.
  destruct (hasStateToSave blob); cbn; [|done].
  rewrite Obj_set_keys, Obj_set_set.
  by destruct (Obj.has "internal_state" d).
Qed.

Lemma load_out (load_impl : Flow → World → outcome unit * World) flow w :
  out (loadFlowWithCompleteState load_impl flow w)
  = (load_impl flow (cleared flow w)).1.
Proof.
  rewrite load_run. by destruct (load_impl flow (cleared flow w)) as [[[]|e] w1].
Qed.

Lemma outside_scope_of_scoped w :
  scoped w → NodeState.outside_scope (currentFlowId w) (internalStates w) = ∅.
Proof.
  intros Hs. apply map_empty. intros k. unfold NodeState.outside_scope.
  apply map_lookup_filter_None. right. intros v Hv Hne. apply Hne. cbn.
  exact (Hs k v Hv).
Qed.

Lemma cleared_internalStates flow w :
  scoped w → internalStates (cleared flow w) = ∅.
Proof. intros Hs. unfold cleared. cbn. by apply outside_scope_of_scoped. Qed.

Lemma restored_keeps_scope scope ns m :
  map_Forall (fun k _ => k.1 = scope) m →
  map_Forall (fun k _ => k.1 = scope) (restored scope ns m).
Proof.
  revert m. induction ns as [|n ns IH]; intros m Hm; [exact Hm|].
  rewrite restored_cons. apply IH.
  destruct (truthy (internal_state_of n)); [|exact Hm].
  by apply map_Forall_insert_2.
Qed.

Lemma load_stores (load_impl : Flow → World → outcome unit * World) flow w :
  scoped w →
  keeps_stores (cleared flow w) (load_impl flow (cleared flow w)).2 →
  let r := loadFlowWithCompleteState load_impl flow w in
  let scope := Some (Number_toString (flow_id flow)) in
  let nodes := default [] (flow_nodes flow) in
  currentFlowId (world r) = scope
  ∧ match out r with
    | Ret _ =>
        internalStates (world r) = restored scope nodes ∅
        ∧ nodeContext (world r)
          = (if truthy (nodeContextData_of flow)
             then entries (nodeContextData_of flow) else [])
    | Throw _ => internalStates (world r) = ∅ ∧ nodeContext (world r) = []
    end.
Proof.
  intros Hsc Hk r scope nodes. unfold r. rewrite load_run.
  pose proof (cleared_internalStates flow w Hsc) as Hempty.
  destruct (load_impl flow (cleared flow w)) as [[[]|e] w1];
    destruct Hk as (Hc & Hs & Hi); cbn [snd] in Hc, Hs, Hi;
    rewrite Hempty in Hi; cbn in Hc, Hs; cbv zeta; cbn [out world].
  - fold nodes.
    match goal with |- currentFlowId ?x = _ ∧ _ => set (wf := x) end.
    split; [unfold wf; by destruct (truthy _)|]. split.
    + unfold wf; destruct (truthy _); cbn; by rewrite Hs, Hi.
    + unfold wf. by destruct (truthy _).
  - done.
Qed.

(** X15. After a load the run-time state outside the graph comes from the
    loaded record alone.  Let every entry of the internal-state layer be
    under the active scope, let the record's id be a safe integer, and let
    the base load leave the stores as it finds them.  Then the scope is the
    record's id in decimal digits; on success the internal-state layer holds
    exactly what the restoring loop wrote and the Node Context Store the
    record's mapping (or nothing), and when the base load throws both are
    left empty - the previous flow's state is gone even though the load
    failed.  A node id for which the record carries no truthy
    [internal_state] reads [undefined], and every entry of the layer is
    again under the active scope. *)
Theorem load_state_comes_from_the_record_only
    (load_impl : Flow → World → outcome unit * World)
    (flow : Flow) (w : World) :
  scoped w →
  safe_integer (flow_id flow) →
  keeps_stores (cleared flow w) (load_impl flow (cleared flow w)).2 →
  let r := loadFlowWithCompleteState load_impl flow w in
  let scope := Some (Number_toString (flow_id flow)) in
  let nodes := default [] (flow_nodes flow) in
  currentFlowId (world r) = scope
  ∧ match out r with
    | Ret _ =>
        internalStates (world r) = restored scope nodes ∅
        ∧ nodeContext (world r)
          = (if truthy (nodeContextData_of flow)
             then entries (nodeContextData_of flow) else [])
    | Throw _ => internalStates (world r) = ∅ ∧ nodeContext (world r) = []
    end
  ∧ (∀ id, (∀ n, n ∈ nodes → node_id n = id →
                 truthy (internal_state_of n) = false) →
           lookupInternalState id (world r) = JUndefined)
  ∧ scoped (world r).
Proof.
  intros Hsc _ Hk r scope nodes.
  destruct (load_stores load_impl flow w Hsc Hk) as [Hscope Hst].
  fold r scope nodes in Hscope, Hst.
  split; [exact Hscope|]. split; [exact Hst|]. split.
  - intros id Hid. unfold lookupInternalState. rewrite Hscope.
    destruct (out r).
    + destruct Hst as [-> _].
      rewrite restored_lookup_other; [by rewrite lookup_empty|].
      intros n Hn Ht [= Heq]. specialize (Hid n Hn Heq). congruence.
    + destruct Hst as [-> _]. by rewrite lookup_empty.
  - unfold scoped. rewrite Hscope. destruct (out r).
    + destruct Hst as [-> _]. apply restored_keeps_scope, map_Forall_empty.
    + destruct Hst as [-> _]. apply map_Forall_empty.
Qed.

Lemma usedWorld_scoped : scoped usedWorld.
Proof.
  intros k v Hk. cbn in Hk.
  apply lookup_insert_Some in Hk as [[<- _]|[_ Hk]]; [reflexivity|].
  apply lookup_singleton_Some in Hk as [<- _]. reflexivity.
Qed.

Lemma load_state_comes_from_the_record_only_witness :
  scoped usedWorld
  ∧ safe_integer (flow_id flowF3)
  ∧ keeps_stores (cleared flowF3 usedWorld)
                 (faithful_loadFlow flowF3 (cleared flowF3 usedWorld)).2
  ∧ lookupInternalState "Z" usedWorld = JObj [("old", JBool true)]
  ∧ lookupInternalState "Z"
      (world (loadFlowWithCompleteState faithful_loadFlow flowF3 usedWorld))
    = JUndefined
  ∧ lookupInternalState "C"
      (world (loadFlowWithCompleteState faithful_loadFlow flowF3 usedWorld))
    = JUndefined
  ∧ nodeContext
      (world (loadFlowWithCompleteState failing_loadFlow flowF3 usedWorld))
    = [].
Proof.
  assert (Hs : safe_integer (flow_id flowF3)) by (unfold safe_integer; cbn; lia).
  assert (H : keeps_stores (cleared flowF3 usedWorld)
                (faithful_loadFlow flowF3 (cleared flowF3 usedWorld)).2)
    by (repeat split).
  assert (H' : keeps_stores (cleared flowF3 usedWorld)
                 (failing_loadFlow flowF3 (cleared flowF3 usedWorld)).2)
    by (repeat split).
  split; [exact usedWorld_scoped|]. split; [exact Hs|].
  split; [exact H|]. split; [reflexivity|].
  pose proof (load_state_comes_from_the_record_only
                faithful_loadFlow flowF3 usedWorld usedWorld_scoped Hs H) as T.
  cbv zeta in T. destruct T as (_ & _ & T & _).
  split; [apply T|split; [apply T|]].
  - intros n Hn Hid. cbn in Hn.
    repeat (apply elem_of_cons in Hn as [->|Hn]; [discriminate|]).
    by apply elem_of_nil in Hn.
  - intros n Hn Hid. cbn in Hn.
    apply elem_of_cons in Hn as [->|Hn]; [discriminate|].
    apply elem_of_cons in Hn as [->|Hn]; [discriminate|].
    apply elem_of_cons in Hn as [->|Hn]; [reflexivity|].
    by apply elem_of_nil in Hn.
  - pose proof (load_state_comes_from_the_record_only
                  failing_loadFlow flowF3 usedWorld usedWorld_scoped Hs H') as T'.
    cbv zeta in T'. destruct T' as (_ & T' & _). exact (proj2 T').
Defined.

Lemma load_lookup_node
    (load_impl : Flow → World → outcome unit * World)
    (flow : Flow) (w : World) (nodes : list Node) (node : Node) :
  scoped w →
  keeps_stores (cleared flow w) (load_impl flow (cleared flow w)).2 →
  (load_impl flow (cleared flow w)).1 = Ret tt →
  flow_nodes flow = Some nodes →
  NoDup (node_id <$> nodes) →
  node ∈ nodes →
  lookupInternalState (node_id node)
    (world (loadFlowWithCompleteState load_impl flow w))
  = persisted_state node.
Proof.
  intros Hsc Hk Hret Hnodes Hnd Hn.
  destruct (load_stores load_impl flow w Hsc Hk) as [Hscope Hst].
  rewrite load_out, Hret, Hnodes in Hst. destruct Hst as [Hint _].
  unfold lookupInternalState, persisted_state. rewrite Hscope, Hint.
  cbn [default]. rewrite restored_lookup_nodup by done.
  by destruct (truthy (internal_state_of node)).
Qed.

(** X16. Let every entry of the internal-state layer be under the active
    scope.  After a successful load of a record whose node ids are distinct
    (base load leaving the stores as it finds them), each node of the
    record reads as internal state the [internal_state] of its data bucket
    when that value is truthy - an empty object included - and [undefined]
    when it is falsy or missing. *)
Theorem load_restores_each_node
    (load_impl : Flow → World → outcome unit * World)
    (flow : Flow) (w : World) (nodes : list Node) (node : Node) :
  scoped w →
  keeps_stores (cleared flow w) (load_impl flow (cleared flow w)).2 →
  (load_impl flow (cleared flow w)).1 = Ret tt →
  flow_nodes flow = Some nodes →
  NoDup (node_id <$> nodes) →
  node ∈ nodes →
  lookupInternalState (node_id node)
    (world (loadFlowWithCompleteState load_impl flow w))
  = persisted_state node.
Proof. apply load_lookup_node. Qed.

Lemma load_restores_each_node_witness :
  scoped usedWorld
  ∧ keeps_stores (cleared flowF3 usedWorld)
                 (faithful_loadFlow flowF3 (cleared flowF3 usedWorld)).2
  ∧ NoDup (node_id <$> [nodeA3; nodeB3; nodeC3])
  ∧ (lookupInternalState "A"
       (world (loadFlowWithCompleteState faithful_loadFlow flowF3 usedWorld))
     = JObj [("x", JNum 1)])
  ∧ (lookupInternalState "B"
       (world (loadFlowWithCompleteState faithful_loadFlow flowF3 usedWorld))
     = JObj [])
  ∧ (lookupInternalState "C" usedWorld = JObj [("old", JBool true)]
     ∧ lookupInternalState "C"
         (world (loadFlowWithCompleteState faithful_loadFlow flowF3 usedWorld))
       = JUndefined).
Proof.
  assert (Hk : keeps_stores (cleared flowF3 usedWorld)
                 (faithful_loadFlow flowF3 (cleared flowF3 usedWorld)).2)
    by (repeat split).
  assert (Hnd : NoDup (node_id <$> [nodeA3; nodeB3; nodeC3]))
    by (apply (bool_decide_unpack _); by vm_compute).
  assert (HA : nodeA3 ∈ [nodeA3; nodeB3; nodeC3]) by (by left).
  assert (HB : nodeB3 ∈ [nodeA3; nodeB3; nodeC3]) by (right; by left).
  assert (HC : nodeC3 ∈ [nodeA3; nodeB3; nodeC3]) by (right; right; by left).
  split; [exact usedWorld_scoped|].
  split; [exact Hk|]. split; [exact Hnd|]. split; [|split; [|split]].
  - exact (load_restores_each_node faithful_loadFlow flowF3 usedWorld
             [nodeA3; nodeB3; nodeC3] nodeA3 usedWorld_scoped Hk
             eq_refl eq_refl Hnd HA).
  - exact (load_restores_each_node faithful_loadFlow flowF3 usedWorld
             [nodeA3; nodeB3; nodeC3] nodeB3 usedWorld_scoped Hk
             eq_refl eq_refl Hnd HB).
  - reflexivity.
  - exact (load_restores_each_node faithful_loadFlow flowF3 usedWorld
             [nodeA3; nodeB3; nodeC3] nodeC3 usedWorld_scoped Hk
             eq_refl eq_refl Hnd HC).
Defined.

Lemma enhanced_of_restored w node :
  is_Some (node_data node) →
  lookupInternalState (node_id node) w = persisted_state node →
  enhanced w node = node.
Proof.
  intros [d Hd] Hb. destruct node as [i t dd rest]. cbn in Hd. subst dd.
  unfold enhanced, enhancedData, Obj.spread. cbn. f_equal. f_equal.
  cbn in Hb. rewrite Hb. unfold persisted_state, internal_state_of, Obj.prop.
  cbn. destruct (Obj.get "internal_state" d) as [v|] eqn:E; cbn.
  - destruct (truthy v) eqn:Ht; [|reflexivity].
    destruct (hasStateToSave v); [|reflexivity]. cbn. by apply Obj_set_same.
  - reflexivity.
Qed.

(** X17. Load, then save.  Let every entry of the internal-state layer be
    under the active scope.  After a successful load of a record whose node
    ids are distinct and whose nodes all have a data bucket (base load
    applying the record's nodes to the live graph and leaving the stores as
    it finds them), the node list a save puts on the live graph for the base
    save to capture is the record's node list again, unchanged; and the
    mapping that save exports is the record's node-context mapping. *)
Theorem load_then_save_resubmits_the_record
    (save_impl : option string → option string → World
                 → outcome (option Flow) * World)
    (update_impl : Z → Flow → World → outcome Flow * World)
    (load_impl : Flow → World → outcome unit * World)
    (name description : option string)
    (flow : Flow) (w : World) (nodes : list Node) :
  scoped w →
  keeps_stores (cleared flow w) (load_impl flow (cleared flow w)).2 →
  (load_impl flow (cleared flow w)).1 = Ret tt →
  rf_nodes (load_impl flow (cleared flow w)).2 = nodes →
  flow_nodes flow = Some nodes →
  NoDup (node_id <$> nodes) →
  Forall (fun n => is_Some (node_data n)) nodes →
  let wl := world (loadFlowWithCompleteState load_impl flow w) in
  head (applied_node_lists
          (trace (saveCurrentFlowWithCompleteState save_impl update_impl
                    name description wl)))
    = Some nodes
  ∧ ∀ o, nodeContextData_of flow = JObj o → nodeContext wl = o.
Proof.
  intros Hsc Hk Hret Hrf Hnodes Hnd Hdata wl.
  assert (Hlive : rf_nodes wl = nodes).
  { unfold wl. rewrite load_run.
    destruct (load_impl flow (cleared flow w)) as [[[]|e] w1]; [|discriminate].
    cbn in Hrf. cbv zeta. cbn [world]. by destruct (truthy _). }
  split.
  - destruct (save_writes_live_graph_twice save_impl update_impl
                name description wl) as [_ ->].
    cbn [head]. f_equal. rewrite Hlive.
    rewrite <- (list_fmap_id nodes) at 2. apply list_fmap_ext.
    intros i n Hi. cbn. apply list_elem_of_lookup_2 in Hi.
    apply enhanced_of_restored.
    + rewrite Forall_forall in Hdata. by apply Hdata.
    + by apply (load_lookup_node load_impl flow w nodes).
  - intros o Ho.
    destruct (load_stores load_impl flow w Hsc Hk) as [_ Hst].
    rewrite load_out, Hret in Hst. destruct Hst as [_ Hctx].
    unfold wl. rewrite Hctx, Ho. reflexivity.
Qed.

Lemma load_then_save_resubmits_the_record_witness :
  scoped usedWorld
  ∧ NoDup (node_id <$> [nodeA3; nodeB3; nodeC3])
  ∧ Forall (fun n => is_Some (node_data n)) [nodeA3; nodeB3; nodeC3]
  ∧ head (applied_node_lists
            (trace (saveCurrentFlowWithCompleteState faithful_saveCurrentFlow
                      faithful_updateFlow None None
                      (world (loadFlowWithCompleteState faithful_loadFlow
                                flowF3 usedWorld)))))
    = Some [nodeA3; nodeB3; nodeC3]
  ∧ nodeContext (world (loadFlowWithCompleteState faithful_loadFlow
                          flowF3 usedWorld))
    = [("A", JStr "p")].
Proof.
  assert (Hk : keeps_stores (cleared flowF3 usedWorld)
                 (faithful_loadFlow flowF3 (cleared flowF3 usedWorld)).2)
    by (repeat split).
  assert (Hnd : NoDup (node_id <$> [nodeA3; nodeB3; nodeC3]))
    by (apply (bool_decide_unpack _); by vm_compute).
  assert (Hd : Forall (fun n => is_Some (node_data n)) [nodeA3; nodeB3; nodeC3])
    by (repeat constructor; by eexists).
  split; [exact usedWorld_scoped|]. split; [exact Hnd|]. split; [exact Hd|].
  pose proof (load_then_save_resubmits_the_record
                faithful_saveCurrentFlow faithful_updateFlow faithful_loadFlow
                None None flowF3 usedWorld [nodeA3; nodeB3; nodeC3]
                usedWorld_scoped Hk eq_refl eq_refl eq_refl Hnd Hd) as T.
  cbv zeta in T. destruct T as [T1 T2].
  split; [exact T1|]. exact (T2 _ eq_refl).
Defined.

Lemma update_calls_app t1 t2 :
  update_calls (t1 ++ t2) = update_calls t1 ++ update_calls t2.
Proof. apply flat_map_app. Qed.

Lemma base_save_calls_app t1 t2 :
  base_save_calls (t1 ++ t2) = base_save_calls t1 ++ base_save_calls t2.
Proof. apply flat_map_app. Qed.

Lemma save_prefix_calls w :
  update_calls (save_prefix w) = [] ∧ base_save_calls (save_prefix w) = [].
Proof.
  unfold save_prefix, update_calls, base_save_calls.
  rewrite !flat_map_app. cbn. rewrite !app_nil_r.
  induction (rf_nodes w) as [|n ns [IH1 IH2]]; [done|]. cbn. by split.
Qed.

(** X18. The save reads the run-time stores but never writes them: with a
    base save and an update call that leave statuses, Node Context Store,
    scope and internal states alone, all four are after the save what they
    were before it, whether it succeeds or fails - exporting the node
    context does not clear it. *)
Theorem save_leaves_the_stores_alone
    (save_impl : option string → option string → World
                 → outcome (option Flow) * World)
    (update_impl : Z → Flow → World → outcome Flow * World)
    (name description : option string) (w : World) :
  (∀ n d w0, stores (save_impl n d w0).2 = stores w0) →
  (∀ id f w0, stores (update_impl id f w0).2 = stores w0) →
  stores (world (saveCurrentFlowWithCompleteState save_impl update_impl
                   name description w)) = stores w.
Proof.
  intros Hsave Hupdate. rewrite save_run. cbv zeta.
  assert (Hrf : ∀ ns w0, stores (set_rf_nodes ns w0) = stores w0) by reflexivity.
  specialize (Hsave name description
                (set_rf_nodes (enhanced w <$> rf_nodes w) w)).
  rewrite Hrf in Hsave.
  destruct (save_impl _ _ _) as [[[saved|]|e] w2]; cbn [snd] in Hsave;
    [|cbn [world]; by rewrite Hrf..].
  specialize (Hupdate (flow_id saved)
                (withNodeContextData saved (JObj (nodeContext w))) w2).
  destruct (update_impl _ _ _) as [[updated|e] w3]; cbn [snd] in Hupdate;
    cbn [world]; by rewrite Hrf, Hupdate.
Qed.

Lemma save_leaves_the_stores_alone_witness :
  (∀ n d w0, stores (faithful_saveCurrentFlow n d w0).2 = stores w0)
  ∧ (∀ id f w0, stores (failing_updateFlow id f w0).2 = stores w0)
  ∧ nodeContext (world (saveCurrentFlowWithCompleteState
                          faithful_saveCurrentFlow failing_updateFlow
                          None None savedWorld))
    = [("A", JStr "msg")].
Proof.
  assert (H1 : ∀ n d w0, stores (faithful_saveCurrentFlow n d w0).2 = stores w0)
    by reflexivity.
  assert (H2 : ∀ id f w0, stores (failing_updateFlow id f w0).2 = stores w0)
    by reflexivity.
  split; [exact H1|]. split; [exact H2|].
  pose proof (save_leaves_the_stores_alone faithful_saveCurrentFlow
                failing_updateFlow None None savedWorld H1 H2) as T.
  exact (f_equal (fun p => p.1.1.2) T).
Defined.

(** X19. Every save starts the base save exactly once.  The update call is
    made only when the base save returned a flow, then exactly once, under
    that flow's id, with a record that has the saved flow's id, name,
    description, nodes and edges and whose data bucket keeps every key of
    the saved flow's bucket other than [nodeContextData]. *)
Theorem update_follows_a_successful_base_save
    (save_impl : option string → option string → World
                 → outcome (option Flow) * World)
    (update_impl : Z → Flow → World → outcome Flow * World)
    (name description : option string) (w : World) :
  let r := saveCurrentFlowWithCompleteState save_impl update_impl
             name description w in
  let ctx := JObj (nodeContext w) in
  base_save_calls (trace r) = [(name, description)]
  ∧ update_calls (trace r)
    = match (save_impl name description
               (set_rf_nodes (enhanced w <$> rf_nodes w) w)).1 with
      | Ret (Some saved) => [(flow_id saved, withNodeContextData saved ctx)]
      | _ => []
      end
  ∧ ∀ saved,
      let req := withNodeContextData saved ctx in
      flow_id req = flow_id saved ∧ flow_name req = flow_name saved
      ∧ flow_description req = flow_description saved
      ∧ flow_nodes req = flow_nodes saved ∧ flow_edges req = flow_edges saved
      ∧ ∀ k d, flow_data req = Some d → k ≠ "nodeContextData" →
               Obj.get k d = Obj.get k (Obj.of_option (flow_data saved)).
Proof.
  intros r ctx. unfold r. rewrite save_run. cbv zeta. fold ctx.
  destruct (save_prefix_calls w) as [Hu Hb].
  split; [|split].
  - destruct (save_impl _ _ _) as [[[saved|]|e] w2];
      [destruct (update_impl _ _ _) as [[updated|e] w3]|..];
      cbn [trace]; by rewrite base_save_calls_app, Hb.
  - destruct (save_impl _ _ _) as [[[saved|]|e] w2];
      [destruct (update_impl _ _ _) as [[updated|e] w3]|..];
      cbn [trace fst]; by rewrite update_calls_app, Hu.
  - intros saved. do 5 (split; [reflexivity|]).
    intros k d [= <-] Hk. unfold Obj.spread. cbn.
    apply Obj_get_set_ne. congruence.
Qed.

Lemma update_follows_a_successful_base_save_witness :
  flow_data (withNodeContextData
               (mkFlow 1 "F" None None [] (Some [("theme", JStr "dark")]))
               (JObj (nodeContext savedWorld)))
    = Some [("theme", JStr "dark");
            ("nodeContextData", JObj [("A", JStr "msg")])]
  ∧ "theme" ≠ "nodeContextData"
  ∧ Obj.get "theme" [("theme", JStr "dark");
                     ("nodeContextData", JObj [("A", JStr "msg")])]
    = Some (JStr "dark").
Proof.
  assert (H1 : flow_data (withNodeContextData
                 (mkFlow 1 "F" None None [] (Some [("theme", JStr "dark")]))
                 (JObj (nodeContext savedWorld)))
               = Some [("theme", JStr "dark");
                       ("nodeContextData", JObj [("A", JStr "msg")])])
    by reflexivity.
  assert (H2 : "theme" ≠ "nodeContextData") by discriminate.
  split; [exact H1|]. split; [exact H2|].
  pose proof (update_follows_a_successful_base_save faithful_saveCurrentFlow
                faithful_updateFlow None None savedWorld) as T.
  cbv zeta in T. destruct T as (_ & _ & T).
  destruct (T (mkFlow 1 "F" None None [] (Some [("theme", JStr "dark")])))
    as (_ & _ & _ & _ & _ & T').
  exact (T' "theme" _ H1 H2).
Defined.

End FlowActionExtras.
